(** * GenerateShuffList: decorrelated shuffled lists

    A shallow embedding of [src/GenerateShuffList.py] and the proofs of
    its properties.

    Modelling choices.
    - numpy/Python floats are exact rationals ([Q]); [==] on floats is
      [Qeq] and [np.abs] is [Qabs].  NaN and rounding are not modelled.
    - [scipy.stats.pearsonr] is a library function: the development is
      parametric in it (its first component, the coefficient).
    - [random.shuffle] is CPython's Fisher-Yates loop.  The random
      source is an infinite tape [rnd : nat -> nat] read through a
      cursor; [randbelow k] is the next cell modulo [k].
    - numpy arrays that are shared are modelled as shared: the slices
      [small] and [big] of the alternating variant are views of [Mono],
      so shuffling them rewrites [Mono].
    - the only unbounded loop, the seed search, takes fuel; [None] stands
      for a search that has not ended within the fuel.
    - [n] and [leng] are natural numbers; a negative [n] is refused by
      [np.linspace] before any statement of the two functions uses it. *)

From Stdlib Require Import ZArith QArith Qabs Lia Lqa SetoidList SetoidPermutation.
From stdpp Require Import base list.

Local Open Scope nat_scope.

(** ** Python values and exceptions *)

(** Local names of the generators that can be read while unbound. *)
Inductive local_name := Lcorrs | LbestGs | Lbestcorrs.

(** The exceptions the embedded code can raise: a read of an unbound
    local, and numpy's refusal to broadcast in a slice assignment
    (a [ValueError] naming the two shapes). *)
Inductive pyerror :=
| UnboundLocalError (v : local_name)
| BroadcastValueError (src dst : nat).

Inductive result (A : Type) :=
| Ok (a : A)
| Raise (e : pyerror).
Arguments Ok {A} a.
Arguments Raise {A} e.

(** What the specification distinguishes: a descriptive configuration
    error, or a runtime error raised by whatever statement failed. *)
Inductive error_kind := ConfigurationError | RuntimeError.

(** Neither generator has a [raise] statement or a check of its
    arguments: both exceptions come from the interpreter and numpy. *)
Definition kind_of (e : pyerror) : error_kind :=
  match e with
  | UnboundLocalError _ => RuntimeError
  | BroadcastValueError _ _ => RuntimeError
  end.

(** ** Comparisons and slices *)

Definition Qltb (x y : Q) : bool :=
  match (x ?= y)%Q with Lt => true | _ => false end.

Definition Qgtb (x y : Q) : bool := Qltb y x.

(** [g in xs] on a list of floats. *)
Definition py_in (g : Q) (xs : list Q) : bool := existsb (Qeq_bool g) xs.

(** [xs[-k:]]: the last [k] elements, the whole list when it is shorter
    and, because [-0] is [0], the whole list when [k = 0]. *)
Definition last_k (k : nat) (xs : list Q) : list Q :=
  match k with
  | 0 => xs
  | S _ => drop (length xs - k) xs
  end.

(** [xs.append(g)] and [del xs[-1]]. *)
Definition append (xs : list Q) (g : Q) : list Q := xs ++ [g].
Definition del_last (xs : list Q) : list Q := take (length xs - 1) xs.

(** [np.linspace(a, b, num)] for [num >= 0]. *)
Definition linspace (a b : Q) (num : nat) : list Q :=
  match num with
  | 0 => []
  | 1 => [a]
  | S d =>
      map (fun i => (a + inject_Z (Z.of_nat i) * ((b - a) / inject_Z (Z.of_nat d)))%Q)
          (seq 0 num)
  end.

(** [dst[off::2] = src] with numpy's broadcasting rule: the shapes must
    agree, or [src] has one element which fills every slot. *)
Fixpoint stride_slots (off : nat) (dst : list Q) : nat :=
  match dst with
  | [] => 0
  | _ :: r =>
      match off with
      | 0 => S (stride_slots 1 r)
      | S o => stride_slots o r
      end
  end.

Fixpoint stride_put (off : nat) (dst src : list Q) : list Q :=
  match dst with
  | [] => []
  | x :: r =>
      match off with
      | 0 =>
          match src with
          | s :: src' => s :: stride_put 1 r src'
          | [] => x :: r
          end
      | S o => x :: stride_put o r src
      end
  end.

Definition stride_assign (off : nat) (dst src : list Q) : result (list Q) :=
  let slots := stride_slots off dst in
  if decide (length src = slots) then Ok (stride_put off dst src)
  else
    match src with
    | [s] => Ok (stride_put off dst (replicate slots s))
    | _ => Raise (BroadcastValueError (length src) slots)
    end.

(** A concrete stand-in for [pearsonr] used to run the model: the
    coefficient [cov / sqrt (vx * vy)] with the square root taken to nine
    decimal places, and [0] for a constant argument. *)
Definition Qsum (xs : list Q) : Q :=
  fold_right (fun x s => Qred (x + s)) 0%Q xs.

Definition Qmean (xs : list Q) : Q :=
  Qred (Qsum xs / inject_Z (Z.of_nat (length xs))).

Definition Qsqrt9 (q : Q) : Q :=
  let q := Qred q in
  (Z.sqrt (Qnum q * Zpos (Qden q) * 10 ^ 18) # (Qden q * 10 ^ 9))%Q.

Definition pearson_q (xs ys : list Q) : Q :=
  let mx := Qmean xs in
  let my := Qmean ys in
  let xm := map (fun x => Qred (x - mx)) xs in
  let ym := map (fun y => Qred (y - my)) ys in
  let num := Qsum (zip_with Qmult xm ym) in
  let den := Qsqrt9 (Qsum (map (fun x => x * x)%Q xm) * Qsum (map (fun y => y * y)%Q ym)) in
  if Qeq_bool den 0 then 0%Q else Qred (num / den).

Section Generators.

(** [scipy.stats.pearsonr(x, y)[0]]. *)
Variable pearsonr : list Q → list Q → Q.

(** The random tape. *)
Variable rnd : nat → nat.

(** *** [random.shuffle] *)

(** [x[i], x[j] = x[j], x[i]] *)
Definition swap (x : list Q) (i j : nat) : list Q :=
  match x !! i, x !! j with
  | Some a, Some b => <[j:=a]> (<[i:=b]> x)
  | _, _ => x
  end.

(** [for i in reversed(range(1, len(x))): j = randbelow(i + 1); swap] *)
Fixpoint shuffle_from (i : nat) (x : list Q) (cur : nat) : list Q * nat :=
  match i with
  | 0 => (x, cur)
  | S i' => shuffle_from i' (swap x i (rnd cur mod (S i))) (S cur)
  end.

Definition shuffle (x : list Q) (cur : nat) : list Q * nat :=
  shuffle_from (length x - 1) x cur.

(** *** The pooled variant, [shufGen] *)

(** The state of one growth attempt.  [Mono] is carried along because
    the alternating variant rewrites it; [cur] is the tape cursor. *)
Record grow_state := GrowState {
  optGs : list Q;
  corrs : list Q;
  count : nat;
  adds : nat;
  Mono : list Q;
  cur : nat
}.

(** The candidate list, the trace and [adds], as the [for] body
    updates them. *)
Definition acc : Type := list Q * list Q * nat.

Section Grower.

Variable n : nat.
Variable leng : nat.

Definition phase : list Q := linspace 1 (inject_Z (Z.of_nat n)) n.

(** Lines 43-52 (and 123-131 without the [break]): the body of the
    [for] loop for one candidate [g], with acceptance threshold
    [thr].  The boolean tells whether [g] was accepted. *)
Definition try_add (thr : Q) (g : Q) (a : acc) : acc * bool :=
  let '(optGs, corrs, adds) := a in
  if py_in g (last_k (n / 2) optGs) then (a, false)
  else
    let optGs := append optGs g in
    let corr := pearsonr phase (last_k n optGs) in
    if Qltb (Qabs corr) thr then (optGs, append corrs corr, S adds, true)
    else (del_last optGs, corrs, adds, false).

(** Lines 41-52: [for g in shuf], no [break]. *)
Definition scan_all (thr : Q) (shuf : list Q) (a : acc) : acc :=
  fold_left (fun a g => fst (try_add thr g a)) shuf a.

(** Lines 38-52: one round of [shufAdd]. *)
Definition shufAdd_round (st : grow_state) : grow_state :=
  let count := S (count st) in
  let '(shuf, cur) := shuffle (Mono st) (cur st) in
  let '(optGs, corrs, adds) :=
    scan_all (1 # 10) shuf (optGs st, corrs st, adds st) in
  GrowState optGs corrs count adds (Mono st) cur.

(** Lines 37-54, for either round function: the [while] loop with
    its [break]. *)
Fixpoint grow_loop (round : grow_state → grow_state) (fuel : nat)
    (st : grow_state) : option grow_state :=
  if decide (length (optGs st) < leng) then
    match fuel with
    | 0 => None
    | S fuel =>
        let st := round st in
        if decide (adds st < count st) then Some st
        else grow_loop round fuel st
    end
  else Some st.

(** Lines 34-55.  The loop runs at most [leng] rounds, see
    [grow_loop_total]. *)
Definition shufAdd (optGs corrs : list Q) (Mono : list Q) (cur : nat)
    : option grow_state :=
  grow_loop shufAdd_round (S leng) (GrowState optGs corrs 0 0 Mono cur).

(** *** The alternating variant's grower *)

(** [small = Mono[:int(n/2)]] and [big = Mono[int(n/2):]] are views:
    reading them reads [Mono], shuffling them writes [Mono]. *)
Definition small (Mono : list Q) : list Q := take (n / 2) Mono.
Definition big (Mono : list Q) : list Q := drop (n / 2) Mono.

Definition shuffle_small (Mono : list Q) (cur : nat) : list Q * nat :=
  let '(s, cur) := shuffle (small Mono) cur in (s ++ big Mono, cur).

Definition shuffle_big (Mono : list Q) (cur : nat) : list Q * nat :=
  let '(b, cur) := shuffle (big Mono) cur in (small Mono ++ b, cur).

(** Lines 121-131: [for g in shuf] with [break] after an accept. *)
Fixpoint scan_first (thr : Q) (shuf : list Q) (a : acc) : acc :=
  match shuf with
  | [] => a
  | g :: shuf =>
      let '(a, accepted) := try_add thr g a in
      if accepted then a else scan_first thr shuf a
  end.

(** Lines 117-131: one round of [altshufAdd]. *)
Definition altshufAdd_round (st : grow_state) : grow_state :=
  let count := S (count st) in
  let '(Mono, cur) := shuffle_small (Mono st) (cur st) in
  let '(Mono, cur) := shuffle_big Mono cur in
  let a := scan_first (5 # 100) (small Mono) (optGs st, corrs st, adds st) in
  let '(optGs, corrs, adds) := scan_first (5 # 100) (big Mono) a in
  GrowState optGs corrs count adds Mono cur.

(** Lines 113-134. *)
Definition altshufAdd (optGs corrs : list Q) (Mono : list Q) (cur : nat)
    : option grow_state :=
  grow_loop altshufAdd_round (S leng) (GrowState optGs corrs 0 0 Mono cur).

(** *** Seed search *)

(** Lines 29-32.  [start] is a copy of [Mono], shuffled in place. *)
Fixpoint seed_loop (fuel : nat) (start : list Q) (cur : nat)
    : option (list Q * nat) :=
  if Qgtb (Qabs (pearsonr phase start)) (1 # 100) then
    match fuel with
    | 0 => None
    | S fuel => let '(start, cur) := shuffle start cur in seed_loop fuel start cur
    end
  else Some (start, cur).

(** Lines 105-111.  The two halves are shuffled in [Mono] and written
    to the even and the odd places of [start]. *)
Fixpoint altseed_loop (fuel : nat) (start Mono : list Q) (cur : nat)
    : option (result (list Q * list Q * nat)) :=
  if Qgtb (Qabs (pearsonr phase start)) (1 # 100) then
    match fuel with
    | 0 => None
    | S fuel =>
        let '(Mono, cur) := shuffle_small Mono cur in
        match stride_assign 0 start (small Mono) with
        | Raise e => Some (Raise e)
        | Ok start =>
            let '(Mono, cur) := shuffle_big Mono cur in
            match stride_assign 1 start (big Mono) with
            | Raise e => Some (Raise e)
            | Ok start => altseed_loop fuel start Mono cur
            end
        end
    end
  else Some (Ok (start, Mono, cur)).

(** *** The restart loop *)

(** The locals of the generator after the seed search.  [corrs] and
    the pair [bestGs], [bestcorrs] are unbound until first assigned
    ([None]); the pair is assigned together on lines 65-66. *)
Record ctl_state := CtlState {
  c_optGs : list Q;
  c_corrs : option (list Q);
  c_count : nat;
  c_lenGs : list nat;
  c_best : option (list Q * list Q);
  c_Mono : list Q;
  c_cur : nat
}.

(** Lines 63-66: [lenGs.append(len(optGs))] and the update of the
    best result. *)
Definition track_best (lenGs : list nat) (best : option (list Q * list Q))
    (optGs corrs : list Q) : list nat * option (list Q * list Q) :=
  let lenGs := lenGs ++ [length optGs] in
  if decide (length optGs = max_list lenGs) then (lenGs, Some (optGs, corrs))
  else (lenGs, best).

Section Restart.

(** The grower ([shufAdd] or [altshufAdd]) and the cap on restarts
    (1000 or 10). *)
Variable grower : list Q → list Q → list Q → nat → option grow_state.
Variable cap : nat.
Variable start : list Q.

(** Lines 59-71 (138-150).  [Raise] is the exception raised inside
    the loop; otherwise the locals at the exit of the loop. *)
Fixpoint restart_loop (fuel : nat) (st : ctl_state)
    : option (result ctl_state) :=
  if decide (length (c_optGs st) < leng) then
    match fuel with
    | 0 => None
    | S fuel =>
        let count := S (c_count st) in
        match grower start [pearsonr phase start] (c_Mono st) (c_cur st) with
        | None => None
        | Some g =>
            let '(lenGs, best) :=
              track_best (c_lenGs st) (c_best st) (optGs g) (corrs g) in
            if decide (count = cap) then
              match best with
              | None => Some (Raise (UnboundLocalError LbestGs))
              | Some (bestGs, bestcorrs) =>
                  Some (Ok (CtlState bestGs (Some bestcorrs) count lenGs
                              best (Mono g) (cur g)))
              end
            else
              restart_loop fuel
                (CtlState (optGs g) (Some (corrs g)) count lenGs best
                   (Mono g) (cur g))
        end
    end
  else Some (Ok st).

(** Lines 56-73 (135-152): the locals before the loop, the loop,
    and the [return], which reads [corrs]. *)
Definition restart (Mono : list Q) (cur : nat)
    : option (result ctl_state) :=
  restart_loop cap (CtlState start None 0 [] None Mono cur).

Definition returned (st : ctl_state) : result (list Q * list Q) :=
  match c_corrs st with
  | None => Raise (UnboundLocalError Lcorrs)
  | Some corrs => Ok (c_optGs st, corrs)
  end.

End Restart.

(** *** The generators *)

(** What a run leaves behind: the seed found, the locals at the exit
    of the restart loop, and the value returned or the exception. *)
Record run := Run {
  r_seed : list Q;
  r_final : result ctl_state;
  r_ret : result (list Q * list Q)
}.

Definition finish (seed : list Q) (final : result ctl_state) : run :=
  Run seed final
    match final with
    | Raise e => Raise e
    | Ok st => returned st
    end.

(** Lines 27-73. *)
Definition shufGen_run (fuel : nat) : option (result run) :=
  let Mono := linspace 5 95 n in
  match seed_loop fuel Mono 0 with
  | None => None
  | Some (start, cur) =>
      match restart shufAdd 1000 start Mono cur with
      | None => None
      | Some final => Some (Ok (finish start final))
      end
  end.

(** Lines 100-152. *)
Definition altshufGen_run (fuel : nat) : option (result run) :=
  let Mono := linspace 5 95 n in
  let start := linspace 0 (inject_Z (Z.of_nat n)) n in
  match altseed_loop fuel start Mono 0 with
  | None => None
  | Some (Raise e) => Some (Raise e)
  | Some (Ok (start, Mono, cur)) =>
      match restart altshufAdd 10 start Mono cur with
      | None => None
      | Some final => Some (Ok (finish start final))
      end
  end.

(** The value a call returns, or the exception it raises. *)
Definition ret_of (r : option (result run)) : option (result (list Q * list Q)) :=
  match r with
  | None => None
  | Some (Raise e) => Some (Raise e)
  | Some (Ok r) => Some (r_ret r)
  end.

Definition shufGen (fuel : nat) : option (result (list Q * list Q)) :=
  ret_of (shufGen_run fuel).

Definition altshufGen (fuel : nat) : option (result (list Q * list Q)) :=
  ret_of (altshufGen_run fuel).

End Grower.

End Generators.

(** A tape to run the model on: an arbitrary fixed sequence of draws,
    and the same sequence read from another place (tape number [s]). *)
Definition tapeZ (z : Z) : nat :=
  Z.to_nat (((z * z * 7919 + z * 104729 + 12345) / 8) mod 1009)%Z.

Definition tape0 (i : nat) : nat := tapeZ (Z.of_nat i).

Definition tapeS (s : nat) (i : nat) : nat :=
  tapeZ (Z.of_nat i + Z.of_nat s * 997).

(** ** The two variants behind one interface *)

Inductive variant := Pooled | Alternating.

Definition generate_run (pearsonr : list Q → list Q → Q) (rnd : nat → nat)
    (v : variant) (n leng fuel : nat) : option (result run) :=
  match v with
  | Pooled => shufGen_run pearsonr rnd n leng fuel
  | Alternating => altshufGen_run pearsonr rnd n leng fuel
  end.

Definition generate (pearsonr : list Q → list Q → Q) (rnd : nat → nat)
    (v : variant) (n leng fuel : nat) : option (result (list Q * list Q)) :=
  ret_of (generate_run pearsonr rnd v n leng fuel).

(** The acceptance threshold of each variant (lines 47 and 126). *)
Definition threshold (v : variant) : Q :=
  match v with
  | Pooled => 1 # 10
  | Alternating => 5 # 100
  end.

Definition round_of (pearsonr : list Q → list Q → Q) (rnd : nat → nat)
    (v : variant) (n : nat) : grow_state → grow_state :=
  match v with
  | Pooled => shufAdd_round pearsonr rnd n
  | Alternating => altshufAdd_round pearsonr rnd n
  end.

(** The grower and the restart cap of each variant. *)
Definition grower_of (pearsonr : list Q → list Q → Q) (rnd : nat → nat)
    (v : variant) (n leng : nat)
    : list Q → list Q → list Q → nat → option grow_state :=
  match v with
  | Pooled => shufAdd pearsonr rnd n leng
  | Alternating => altshufAdd pearsonr rnd n leng
  end.

Definition cap_of (v : variant) : nat :=
  match v with
  | Pooled => 1000
  | Alternating => 10
  end.

(** [sequence[i-n+1 : i+1]], for [i + 1 >= n]. *)
Definition window (n i : nat) (sequence : list Q) : list Q :=
  take n (drop (i + 1 - n) sequence).

(** A call that fails with a configuration error. *)
Definition fails_with_configuration_error {A : Type}
    (r : option (result A)) : Prop :=
  ∃ e, r = Some (Raise e) ∧ kind_of e = ConfigurationError.

(** ** The properties of sequences and states *)

(** The value pool, [np.linspace(5, 95, n)]. *)
Definition pool (n : nat) : list Q := linspace 5 95 n.

(** Each time the list had [k >= n] elements, its last [n] correlated
    with [phase] below [thr]. *)
Definition win_ok (pearsonr : list Q → list Q → Q) (n : nat) (thr : Q)
    (l : list Q) : Prop :=
  ∀ k, n ≤ k ≤ length l →
    (Qabs (pearsonr (phase n) (last_k n (take k l))) < thr)%Q.

(** No value equals one of the [h] values before it. *)
Definition norep (h : nat) (l : list Q) : Prop :=
  ∀ i j x y, l !! i = Some x → l !! j = Some y → j < i → i ≤ j + h →
    ¬ (x == y)%Q.

(** A candidate list [l] with its trace [c], grown from [seed]. *)
Definition good (pearsonr : list Q → list Q → Q) (n : nat) (thr : Q)
    (seed l c : list Q) : Prop :=
  seed `prefix_of` l ∧
  length l + 1 = length seed + length c ∧
  win_ok pearsonr n thr l ∧
  norep (n / 2) l ∧
  (n = 0 → l = seed).

Definition acc_ok (pearsonr : list Q → list Q → Q) (n : nat) (thr : Q)
    (seed : list Q) (a : acc) : Prop :=
  good pearsonr n thr seed a.1.1 a.1.2 ∧ length a.1.1 = length seed + a.2.

(** Each half of [Mono] holds the values it was built with. *)
Definition Mono_ok (n : nat) (M : list Q) : Prop :=
  small n M ≡ₚ small n (pool n) ∧ big n M ≡ₚ big n (pool n).

Definition st_ok (pearsonr : list Q → list Q → Q) (n : nat) (thr : Q)
    (seed : list Q) (st : grow_state) : Prop :=
  acc_ok pearsonr n thr seed (optGs st, corrs st, adds st) ∧ Mono_ok n (Mono st).

(** What the seed search establishes. *)
Definition seed_ok (pearsonr : list Q → list Q → Q) (n : nat)
    (seed : list Q) : Prop :=
  length seed = n ∧
  NoDupA Qeq seed ∧
  (Qabs (pearsonr (phase n) seed) <= 1 # 100)%Q.

Definition ctl_ok (pearsonr : list Q → list Q → Q) (n : nat) (thr : Q)
    (seed : list Q) (st : ctl_state) : Prop :=
  Mono_ok n (c_Mono st) ∧
  (∀ c, c_corrs st = Some c → good pearsonr n thr seed (c_optGs st) c) ∧
  (∀ b bc, c_best st = Some (b, bc) → good pearsonr n thr seed b bc).

(** The best result is bound from the first attempt on, and is as long
    as the longest attempt. *)
Definition best_ok (st : ctl_state) : Prop :=
  match c_best st with
  | None => c_lenGs st = []
  | Some (b, _) => length b = max_list (c_lenGs st)
  end.

(** What the restart loop needs of its grower: started on the seed
    it returns, and returns a state in order. *)
Definition grower_ok (pearsonr : list Q → list Q → Q) (n : nat) (thr : Q)
    (seed : list Q)
    (grower : list Q → list Q → list Q → nat → option grow_state) : Prop :=
  ∀ M c, Mono_ok n M →
    ∃ g, grower seed [pearsonr (phase n) seed] M c = Some g ∧
         st_ok pearsonr n thr seed g.

(** Values of the pool for [n = 8], written by their numerators. *)
Definition sevenths (ks : list Z) : list Q :=
  map (fun k => k # 7) ks.

(** A property of a candidate list and its trace that every accepted
    append keeps: [g] is a value of the pool that passed the two tests
    of the [for] body. *)
Definition step_closed (pearsonr : list Q → list Q → Q) (n : nat)
    (v : variant) (P : list Q → list Q → Prop) : Prop :=
  ∀ g l c, g ∈ pool n →
    py_in g (last_k (n / 2) l) = false →
    (Qabs (pearsonr (phase n) (last_k n (l ++ [g]))) < threshold v)%Q →
    P l c →
    P (l ++ [g]) (c ++ [pearsonr (phase n) (last_k n (l ++ [g]))]).

(** The values at the even places satisfy [A], those at the odd places
    [B]. *)
Definition alt_pos (A B : Q → Prop) (l : list Q) : Prop :=
  ∀ i x, l !! i = Some x → if Nat.even i then A x else B x.

(** The most one round can accept: every value of the shuffled pool,
    or one value of each half. *)
Definition round_gain (v : variant) (n : nat) : nat :=
  match v with
  | Pooled => n
  | Alternating => 2
  end.

(** * Proofs *)

(** ** Comparisons, slices *)

Lemma Qltb_true x y : Qltb x y = true ↔ (x < y)%Q.
Proof.
  unfold Qltb. rewrite Qlt_alt. destruct (x ?= y)%Q; split; congruence.
Qed.

Lemma Qgtb_false x y : Qgtb x y = false → (x <= y)%Q.
Proof.
  intros H. apply Qnot_lt_le. intros Hlt.
  apply Qltb_true in Hlt. unfold Qgtb in H. congruence.
Qed.

Lemma py_in_false g xs y :
  py_in g xs = false → y ∈ xs → ¬ (g == y)%Q.
Proof.
  unfold py_in. induction xs as [|x xs IH]; simpl; intros H Hy.
  - by apply elem_of_nil in Hy.
  - apply orb_false_iff in H as [Hx Hxs].
    apply elem_of_cons in Hy as [->|Hy]; [|by apply IH].
    intros Heq. apply Qeq_bool_iff in Heq. congruence.
Qed.

Lemma del_last_append xs g : del_last (append xs g) = xs.
Proof.
  unfold del_last, append. rewrite length_app. simpl.
  replace (length xs + 1 - 1) with (length xs) by lia.
  by rewrite take_app_length.
Qed.

Lemma last_k_lookup k xs j y :
  xs !! j = Some y → length xs ≤ j + k → j < length xs → y ∈ last_k k xs.
Proof.
  intros Hj Hk Hlt. destruct k as [|k]; [lia|]. simpl.
  apply list_elem_of_lookup. exists (j - (length xs - S k)).
  rewrite lookup_drop. rewrite <- Hj. f_equal. lia.
Qed.

Lemma last_k_take_window n i xs :
  0 < n → n ≤ i + 1 → i < length xs →
  last_k n (take (i + 1) xs) = window n i xs.
Proof.
  intros Hn Hi Hlen. destruct n as [|n]; [lia|]. unfold last_k, window.
  rewrite length_take, take_drop_commute.
  replace (i + 1 `min` length xs) with (i + 1) by lia.
  f_equal; [lia|]. f_equal. lia.
Qed.

(** ** [random.shuffle] permutes *)

Section ShuffleFacts.

Variable rnd : nat → nat.

Lemma swap_perm x i j : swap x i j ≡ₚ x.
Proof.
  unfold swap. destruct (x !! i) eqn:Hi; [|done].
  destruct (x !! j) eqn:Hj; [|done].
  by apply Permutation_insert_swap.
Qed.

Lemma shuffle_from_perm i x cur : (shuffle_from rnd i x cur).1 ≡ₚ x.
Proof.
  revert x cur. induction i as [|i IH]; intros x cur; simpl; [done|].
  rewrite IH. apply swap_perm.
Qed.

Lemma shuffle_perm x cur : (shuffle rnd x cur).1 ≡ₚ x.
Proof. apply shuffle_from_perm. Qed.

Lemma shuffle_length x cur : length (shuffle rnd x cur).1 = length x.
Proof. by rewrite shuffle_perm. Qed.

End ShuffleFacts.

(** ** Strided assignment *)

Lemma half_bounds n : 2 * (n / 2) ≤ n < 2 * (n / 2) + 2.
Proof.
  pose proof (Nat.div_mod_eq n 2). pose proof (Nat.mod_upper_bound n 2). lia.
Qed.

Lemma stride_slots_sum (l : list Q) :
  stride_slots 0 l + stride_slots 1 l = length l ∧
  stride_slots 1 l ≤ stride_slots 0 l ≤ stride_slots 1 l + 1.
Proof. induction l as [|x l IH]; simpl; lia. Qed.

Lemma stride_put_length off (dst src : list Q) :
  length (stride_put off dst src) = length dst.
Proof.
  revert off src. induction dst as [|x r IH]; intros off src; simpl; [done|].
  destruct off; [destruct src|]; simpl; by rewrite ?IH.
Qed.

Lemma stride_assign_length off dst src dst' :
  stride_assign off dst src = Ok dst' → length dst' = length dst.
Proof.
  unfold stride_assign. intros H.
  destruct (decide _); [|destruct src as [|s [|]]]; simplify_eq;
    apply stride_put_length.
Qed.

Lemma stride_put_interleave (l : list Q) :
  (∀ s b, length s = stride_slots 0 l → length b = stride_slots 1 l →
     stride_put 1 (stride_put 0 l s) b ≡ₚ s ++ b) ∧
  (∀ s b, length s = stride_slots 1 l → length b = stride_slots 0 l →
     stride_put 0 (stride_put 1 l s) b ≡ₚ b ++ s).
Proof.
  induction l as [|x r [IH1 IH2]]; split; intros s b Hs Hb; simpl in *.
  - by destruct s, b.
  - by destruct s, b.
  - destruct s as [|s0 s]; simplify_eq/=. f_equiv.
    rewrite IH2 by done. apply Permutation_app_comm.
  - destruct b as [|b0 b]; simplify_eq/=. f_equiv.
    rewrite IH1 by done. apply Permutation_app_comm.
Qed.

(** ** Distinct values *)

Lemma NoDupA_Qeq_perm (l l' : list Q) :
  l ≡ₚ l' → NoDupA Qeq l → NoDupA Qeq l'.
Proof.
  intros Hp Hn.
  eapply (PermutationA_preserves_NoDupA Q_Setoid); [|exact Hn].
  by apply Permutation_PermutationA; [apply Q_Setoid|].
Qed.

Lemma NoDupA_Qeq_map (f : nat → Q) (l : list nat) :
  (∀ i j, (f i == f j)%Q → i = j) → NoDup l → NoDupA Qeq (map f l).
Proof.
  intros Hinj. induction 1 as [|i l Hi Hl IH]; simpl; constructor; [|done].
  intros Hin. apply InA_alt in Hin as (y & Hy & Hin).
  apply in_map_iff in Hin as (j & <- & Hj).
  apply Hinj in Hy as ->. by apply Hi, list_elem_of_In.
Qed.

Lemma linspace_NoDupA a b num :
  (2 ≤ num → ¬ (a == b)%Q) → NoDupA Qeq (linspace a b num).
Proof.
  intros Hab. destruct num as [|[|d]]; unfold linspace.
  - constructor.
  - constructor; [|constructor]. by intros H%InA_nil.
  - apply NoDupA_Qeq_map; [|apply NoDup_seq].
    intros i j Hij.
    assert (Hd : (0 < inject_Z (Z.of_nat (S d)))%Q).
    { change 0%Q with (inject_Z 0). rewrite <- Zlt_Qlt. lia. }
    set (s := ((b - a) / inject_Z (Z.of_nat (S d)))%Q) in *.
    assert (Hs : ¬ (s == 0)%Q).
    { intros Hs. apply Hab; [lia|].
      assert (H : (s * inject_Z (Z.of_nat (S d)) == b - a)%Q).
      { unfold s. field. lra. }
      rewrite Hs in H. lra. }
    assert (H : ((inject_Z (Z.of_nat i) - inject_Z (Z.of_nat j)) * s == 0)%Q).
    { transitivity ((a + inject_Z (Z.of_nat i) * s) - (a + inject_Z (Z.of_nat j) * s))%Q;
        [ring|]. rewrite Hij. ring. }
    apply Qmult_integral in H as [H|H]; [|done].
    assert (H' : (inject_Z (Z.of_nat i) == inject_Z (Z.of_nat j))%Q).
    { transitivity ((inject_Z (Z.of_nat i) - inject_Z (Z.of_nat j)) + inject_Z (Z.of_nat j))%Q;
        [ring|]. rewrite H. ring. }
    unfold Qeq in H'. simpl in H'. lia.
Qed.

Lemma NoDupA_norep h (l : list Q) : NoDupA Qeq l → norep h l.
Proof.
  induction 1 as [|x0 l Hx0 Hl IH]; intros i j x y Hi Hj Hlt Hh Heq.
  - by rewrite lookup_nil in Hi.
  - destruct i as [|i]; [lia|]. destruct j as [|j]; simpl in *.
    + simplify_eq. apply Hx0, InA_alt. exists x. split; [by symmetry|].
      apply list_elem_of_In, list_elem_of_lookup. eauto.
    + eapply (IH i j); eauto; lia.
Qed.

(** ** The value pool and its two views *)

Lemma linspace_length a b num : length (linspace a b num) = num.
Proof.
  destruct num as [|[|d]]; unfold linspace; [done..|].
  by rewrite length_map, length_seq.
Qed.

Lemma halves_put_small h (s M : list Q) :
  length s = length (take h M) →
  take h (s ++ drop h M) = s ∧ drop h (s ++ drop h M) = drop h M.
Proof.
  rewrite length_take. intros Hs.
  destruct (decide (h ≤ length M)) as [Hle|Hgt].
  - rewrite take_app_length', drop_app_length' by lia. done.
  - rewrite (drop_ge M) by lia. rewrite app_nil_r.
    rewrite take_ge, drop_ge by lia. done.
Qed.

Lemma halves_put_big h (b M : list Q) :
  length b = length (drop h M) →
  take h (take h M ++ b) = take h M ∧ drop h (take h M ++ b) = b.
Proof.
  rewrite length_drop. intros Hb.
  destruct (decide (h ≤ length M)) as [Hle|Hgt].
  - rewrite take_app_length', drop_app_length' by (rewrite length_take; lia). done.
  - destruct b; [|simpl in Hb; lia]. rewrite app_nil_r.
    rewrite take_take, Nat.min_id, drop_ge by (rewrite length_take; lia). done.
Qed.

Section GrowFacts.

Variable pearsonr : list Q → list Q → Q.
Variable rnd : nat → nat.
Variable n : nat.

Lemma pool_Mono_ok : Mono_ok n (pool n).
Proof. by split. Qed.

Lemma Mono_ok_perm M : Mono_ok n M → M ≡ₚ pool n.
Proof.
  intros [Hs Hb]. rewrite <- (take_drop (n / 2) M), <- (take_drop (n / 2) (pool n)).
  unfold small, big in *. by rewrite Hs, Hb.
Qed.

Lemma Mono_ok_length M : Mono_ok n M → length M = n.
Proof. intros H%Mono_ok_perm. rewrite H. apply linspace_length. Qed.

Lemma shuffle_small_spec M c :
  Mono_ok n M → Mono_ok n (shuffle_small rnd n M c).1.
Proof.
  intros [Hs Hb]. unfold shuffle_small.
  pose proof (shuffle_perm rnd (small n M) c) as Hp.
  destruct (shuffle rnd (small n M) c) as [s c']. simpl in *.
  destruct (halves_put_small (n / 2) s M) as [H1 H2].
  { by rewrite Hp. }
  unfold Mono_ok, small, big in *. rewrite H1, H2. by rewrite Hp.
Qed.

Lemma shuffle_big_spec M c :
  Mono_ok n M → Mono_ok n (shuffle_big rnd n M c).1.
Proof.
  intros [Hs Hb]. unfold shuffle_big.
  pose proof (shuffle_perm rnd (big n M) c) as Hp.
  destruct (shuffle rnd (big n M) c) as [b c']. simpl in *.
  destruct (halves_put_big (n / 2) b M) as [H1 H2].
  { by rewrite Hp. }
  unfold Mono_ok, small, big in *. rewrite H1, H2. by rewrite Hp.
Qed.

(** ** One candidate *)

Lemma try_add_cases thr g l c k :
  try_add pearsonr n thr g (l, c, k) = (l, c, k, false) ∨
  (py_in g (last_k (n / 2) l) = false ∧
   (Qabs (pearsonr (phase n) (last_k n (l ++ [g]))) < thr)%Q ∧
   try_add pearsonr n thr g (l, c, k) =
     (l ++ [g], c ++ [pearsonr (phase n) (last_k n (l ++ [g]))], S k, true)).
Proof.
  unfold try_add. destruct (py_in g _) eqn:Hin; [by left|].
  fold (append l g).
  destruct (Qltb _ thr) eqn:Hlt.
  - right. apply Qltb_true in Hlt. done.
  - left. by rewrite del_last_append.
Qed.

Lemma good_append thr seed l c g :
  n ≠ 0 →
  good pearsonr n thr seed l c →
  py_in g (last_k (n / 2) l) = false →
  (Qabs (pearsonr (phase n) (last_k n (l ++ [g]))) < thr)%Q →
  good pearsonr n thr seed (l ++ [g])
    (c ++ [pearsonr (phase n) (last_k n (l ++ [g]))]).
Proof.
  intros Hn (Hpre & Hlen & Hwin & Hrep & _) Hin Hlt.
  split; [by apply prefix_app_r|].
  split; [rewrite !length_app; simpl; lia|].
  split; [|split; [|done]].
  - intros k Hk. rewrite length_app in Hk. simpl in Hk.
    destruct (decide (k ≤ length l)) as [Hle|Hgt].
    + rewrite take_app_le by done. apply Hwin. lia.
    + rewrite take_ge by (rewrite length_app; simpl; lia). done.
  - intros i j x y Hi Hj Hji Hh.
    assert (Hil : i < length (l ++ [g])) by (eapply lookup_lt_Some; eauto).
    rewrite length_app in Hil. simpl in Hil.
    rewrite lookup_app_l in Hj by lia.
    destruct (decide (i < length l)) as [Hlt'|Hge].
    + rewrite lookup_app_l in Hi by done. eapply Hrep; eauto.
    + assert (i = length l) as -> by lia.
      rewrite list_lookup_middle in Hi by done. simplify_eq.
      apply (py_in_false _ _ _ Hin). eapply last_k_lookup; eauto; lia.
Qed.

Lemma try_add_ok thr seed g a :
  n ≠ 0 → acc_ok pearsonr n thr seed a →
  acc_ok pearsonr n thr seed (try_add pearsonr n thr g a).1 ∧
  a.2 ≤ (try_add pearsonr n thr g a).1.2 ≤ S a.2.
Proof.
  destruct a as [[l c] k]. intros Hn [Hg Hl]. simpl in Hg, Hl.
  destruct (try_add_cases thr g l c k) as [->|(Hin & Hlt & ->)]; simpl.
  - split; [done|lia].
  - split; [|lia]. split; simpl.
    + by apply good_append.
    + rewrite length_app. simpl. lia.
Qed.

(** ** The two scans *)

Lemma scan_all_ok thr seed shuf a :
  (n = 0 → shuf = []) → acc_ok pearsonr n thr seed a →
  acc_ok pearsonr n thr seed (scan_all pearsonr n thr shuf a) ∧
  a.2 ≤ (scan_all pearsonr n thr shuf a).2.
Proof.
  intros Hn. destruct (decide (n = 0)) as [H0|H0].
  { rewrite (Hn H0). simpl. auto. }
  clear Hn. revert a. unfold scan_all.
  induction shuf as [|g shuf IH]; intros a Ha; simpl; [auto|].
  destruct (try_add_ok thr seed g a H0 Ha) as [Ha' Hk].
  destruct (IH _ Ha') as [? ?]. split; [done|lia].
Qed.

Lemma scan_first_ok thr seed shuf a :
  (n = 0 → shuf = []) → acc_ok pearsonr n thr seed a →
  acc_ok pearsonr n thr seed (scan_first pearsonr n thr shuf a) ∧
  a.2 ≤ (scan_first pearsonr n thr shuf a).2.
Proof.
  intros Hn. destruct (decide (n = 0)) as [H0|H0].
  { rewrite (Hn H0). simpl. auto. }
  clear Hn. revert a.
  induction shuf as [|g shuf IH]; intros a Ha; simpl; [auto|].
  destruct (try_add_ok thr seed g a H0 Ha) as [Ha' Hk].
  destruct (try_add pearsonr n thr g a) as [a' [|]]; simpl in *.
  - split; [done|lia].
  - destruct (IH _ Ha') as [? ?]. split; [done|lia].
Qed.

End GrowFacts.

(** ** Rounds and the growth loop *)

Section LoopFacts.

Variable pearsonr : list Q → list Q → Q.
Variable rnd : nat → nat.
Variable n : nat.
Variable leng : nat.

Lemma shufAdd_round_ok seed st :
  st_ok pearsonr n (1 # 10) seed st →
  st_ok pearsonr n (1 # 10) seed (shufAdd_round pearsonr rnd n st) ∧
  count (shufAdd_round pearsonr rnd n st) = S (count st) ∧
  adds st ≤ adds (shufAdd_round pearsonr rnd n st) ∧
  Mono (shufAdd_round pearsonr rnd n st) = Mono st.
Proof.
  intros [Ha HM]. unfold shufAdd_round.
  pose proof (shuffle_perm rnd (Mono st) (cur st)) as Hp.
  destruct (shuffle rnd (Mono st) (cur st)) as [shuf c]. simpl in Hp.
  destruct (scan_all_ok pearsonr n (1 # 10) seed shuf
              (optGs st, corrs st, adds st)) as [Ha' Hk]; [|done|].
  { intros H0. apply Permutation_nil_r. rewrite Hp.
    apply Mono_ok_length in HM.
    assert (Mono st = []) as -> by (apply nil_length_inv; lia). done. }
  destruct (scan_all _ _ _ _ _) as [[l c'] k]. simpl in *.
  split; [by split|done].
Qed.

Lemma altshufAdd_round_ok seed st :
  st_ok pearsonr n (5 # 100) seed st →
  st_ok pearsonr n (5 # 100) seed (altshufAdd_round pearsonr rnd n st) ∧
  count (altshufAdd_round pearsonr rnd n st) = S (count st) ∧
  adds st ≤ adds (altshufAdd_round pearsonr rnd n st).
Proof.
  intros [Ha HM]. unfold altshufAdd_round.
  pose proof (shuffle_small_spec rnd n (Mono st) (cur st) HM) as HM1.
  destruct (shuffle_small rnd n (Mono st) (cur st)) as [M1 c1]. simpl in HM1.
  pose proof (shuffle_big_spec rnd n M1 c1 HM1) as HM2.
  destruct (shuffle_big rnd n M1 c1) as [M2 c2]. simpl in HM2.
  assert (Hnil : ∀ h, n = 0 → take h M2 = [] ∧ drop h M2 = []).
  { intros h H0. apply Mono_ok_length in HM2.
    assert (M2 = []) as -> by (apply nil_length_inv; lia).
    by rewrite take_nil, drop_nil. }
  destruct (scan_first_ok pearsonr n (5 # 100) seed (small n M2)
              (optGs st, corrs st, adds st)) as [Ha1 Hk1]; [|done|].
  { intros H0. by apply Hnil. }
  destruct (scan_first_ok pearsonr n (5 # 100) seed (big n M2)
              (scan_first pearsonr n (5 # 100) (small n M2)
                 (optGs st, corrs st, adds st))) as [Ha2 Hk2]; [|done|].
  { intros H0. by apply Hnil. }
  destruct (scan_first _ _ _ (big n M2) _) as [[l c'] k]. simpl in *.
  split; [by split|]. split; [done|lia].
Qed.

Lemma round_of_ok v seed st :
  st_ok pearsonr n (threshold v) seed st →
  st_ok pearsonr n (threshold v) seed (round_of pearsonr rnd v n st) ∧
  count (round_of pearsonr rnd v n st) = S (count st) ∧
  adds st ≤ adds (round_of pearsonr rnd v n st).
Proof.
  destruct v; simpl; intros H.
  - by destruct (shufAdd_round_ok seed st H) as (? & ? & ? & ?).
  - by apply altshufAdd_round_ok.
Qed.

Lemma st_ok_length v seed st :
  st_ok pearsonr n (threshold v) seed st →
  length (optGs st) = length seed + adds st.
Proof. by intros [[_ H] _]. Qed.

Lemma grow_loop_ok v seed fuel st st' :
  st_ok pearsonr n (threshold v) seed st →
  grow_loop leng (round_of pearsonr rnd v n) fuel st = Some st' →
  st_ok pearsonr n (threshold v) seed st'.
Proof.
  revert st. induction fuel as [|fuel IH]; intros st Hst; simpl;
    destruct (decide (length (optGs st) < leng)); try congruence.
  destruct (round_of_ok v seed st Hst) as (Hst' & _ & _).
  destruct (decide _); [congruence|]. by apply IH.
Qed.

(** The growth loop ends: while it runs, [count <= adds < leng]. *)
Lemma grow_loop_total v seed fuel st :
  st_ok pearsonr n (threshold v) seed st →
  count st ≤ adds st →
  leng < fuel + count st →
  is_Some (grow_loop leng (round_of pearsonr rnd v n) fuel st).
Proof.
  revert st. induction fuel as [|fuel IH]; intros st Hst Hc Hf; simpl;
    destruct (decide (length (optGs st) < leng)) as [Hlt|]; try done.
  - rewrite (st_ok_length v seed st Hst) in Hlt. lia.
  - destruct (round_of_ok v seed st Hst) as (Hst' & Hc' & Ha').
    destruct (decide _); [done|]. apply IH; [done|lia..].
Qed.

Lemma grower_of_unfold v l c M k :
  grower_of pearsonr rnd v n leng l c M k =
  grow_loop leng (round_of pearsonr rnd v n) (S leng) (GrowState l c 0 0 M k).
Proof. by destruct v. Qed.

Lemma grower_of_ok v seed c M k g :
  good pearsonr n (threshold v) seed seed c → Mono_ok n M →
  grower_of pearsonr rnd v n leng seed c M k = Some g →
  st_ok pearsonr n (threshold v) seed g.
Proof.
  intros Hg HM. rewrite grower_of_unfold. apply grow_loop_ok.
  split; [split|]; simpl; [done|lia|done].
Qed.

Lemma grower_of_total v seed c M k :
  good pearsonr n (threshold v) seed seed c → Mono_ok n M →
  is_Some (grower_of pearsonr rnd v n leng seed c M k).
Proof.
  intros Hg HM. rewrite grower_of_unfold.
  apply (grow_loop_total v seed); simpl; [|lia..].
  split; [split|]; simpl; [done|lia|done].
Qed.

End LoopFacts.

(** ** Best-result tracking and the restart loop *)

Lemma max_list_snoc ns x : max_list (ns ++ [x]) = max_list ns `max` x.
Proof. induction ns as [|m ns IH]; simpl; lia. Qed.

Lemma track_best_spec lenGs best (l c : list Q) :
  track_best lenGs best l c =
  (lenGs ++ [length l],
   if decide (max_list lenGs ≤ length l) then Some (l, c) else best).
Proof.
  unfold track_best. rewrite max_list_snoc.
  destruct (decide (length l = _)), (decide (max_list lenGs ≤ _)); try done; lia.
Qed.

Section RestartFacts.

Variable pearsonr : list Q → list Q → Q.
Variable n : nat.
Variable leng : nat.

Lemma track_best_ok thr seed st g :
  (∀ b bc, c_best st = Some (b, bc) → good pearsonr n thr seed b bc) →
  best_ok st →
  good pearsonr n thr seed (optGs g) (corrs g) →
  let best := if decide (max_list (c_lenGs st) ≤ length (optGs g))
              then Some (optGs g, corrs g) else c_best st in
  (∀ b bc, best = Some (b, bc) → good pearsonr n thr seed b bc) ∧
  ∃ b bc, best = Some (b, bc) ∧
          length b = max_list (c_lenGs st ++ [length (optGs g)]).
Proof.
  intros Hbest Hb Hgood best. split.
  - intros b bc. unfold best. destruct (decide _); [by intros [= <- <-]|].
    apply Hbest.
  - rewrite max_list_snoc. unfold best, best_ok in *.
    destruct (decide _) as [Hle|Hgt]; [eexists _, _; split; [done|lia]|].
    destruct (c_best st) as [[b bc]|]; [eexists _, _; split; [done|lia]|].
    rewrite Hb in Hgt. simpl in Hgt. lia.
Qed.

Lemma restart_loop_ok thr seed grower cap fuel st res :
  grower_ok pearsonr n thr seed grower →
  ctl_ok pearsonr n thr seed st → best_ok st →
  restart_loop pearsonr n leng grower cap seed fuel st = Some res →
  ∃ st', res = Ok st' ∧ ctl_ok pearsonr n thr seed st' ∧ best_ok st'.
Proof.
  intros Hgrow. revert st.
  induction fuel as [|fuel IH]; intros st Hst Hb; simpl;
    destruct (decide (length (c_optGs st) < leng)); try congruence;
    try (intros [= <-]; eauto; fail).
  destruct Hst as (HM & Hc & Hbest).
  destruct (Hgrow (c_Mono st) (c_cur st) HM) as (g & -> & [[Hgood _] HMg]).
  simpl in Hgood. rewrite track_best_spec.
  destruct (track_best_ok thr seed st g Hbest Hb Hgood)
    as (Hbest' & b & bc & Eb & Hlen).
  rewrite Eb in *.
  destruct (decide (S (c_count st) = cap)).
  - intros [= <-]. eexists. split; [done|]. split.
    + split; [done|]. split; simpl; [|done].
      intros c [= <-]. by apply Hbest'.
    + unfold best_ok. simpl. done.
  - apply IH.
    + split; [done|]. split; simpl; [|done]. by intros c [= <-].
    + unfold best_ok. simpl. done.
Qed.

Lemma restart_loop_total thr seed grower cap fuel st :
  grower_ok pearsonr n thr seed grower →
  ctl_ok pearsonr n thr seed st → best_ok st →
  c_count st + fuel = cap → 0 < fuel →
  is_Some (restart_loop pearsonr n leng grower cap seed fuel st).
Proof.
  intros Hgrow. revert st.
  induction fuel as [|fuel IH]; intros st Hst Hb Hcap Hfuel; [lia|]. simpl.
  destruct (decide (length (c_optGs st) < leng)); [|done].
  destruct Hst as (HM & Hc & Hbest).
  destruct (Hgrow (c_Mono st) (c_cur st) HM) as (g & -> & [[Hgood _] HMg]).
  simpl in Hgood. rewrite track_best_spec.
  destruct (track_best_ok thr seed st g Hbest Hb Hgood)
    as (Hbest' & b & bc & Eb & Hlen).
  rewrite Eb in *.
  destruct (decide (S (c_count st) = cap)); [done|].
  apply IH; [|done|simpl; lia|lia].
  split; [done|]. split; simpl; [by intros c [= <-]|done].
Qed.

Lemma restart_total thr seed grower cap M c :
  grower_ok pearsonr n thr seed grower → Mono_ok n M → 0 < cap →
  is_Some (restart pearsonr n leng grower cap seed M c).
Proof.
  intros Hgrow HM Hcap.
  apply (restart_loop_total thr); first [done | by split].
Qed.

Lemma restart_ok thr seed grower cap M c res :
  grower_ok pearsonr n thr seed grower → Mono_ok n M →
  restart pearsonr n leng grower cap seed M c = Some res →
  ∃ st', res = Ok st' ∧ ctl_ok pearsonr n thr seed st' ∧ best_ok st'.
Proof.
  intros Hgrow HM.
  apply (restart_loop_ok thr); first [done | by split].
Qed.

Lemma grower_of_grower_ok rnd v seed :
  good pearsonr n (threshold v) seed seed [pearsonr (phase n) seed] →
  grower_ok pearsonr n (threshold v) seed (grower_of pearsonr rnd v n leng).
Proof.
  intros Hg M c HM.
  destruct (grower_of_total pearsonr rnd n leng v seed _ M c Hg HM) as [g Hgr].
  exists g. split; [done|]. by eapply grower_of_ok.
Qed.

End RestartFacts.

(** ** Seed search *)

Section SeedFacts.

Variable pearsonr : list Q → list Q → Q.
Variable rnd : nat → nat.
Variable n : nat.

Lemma seed_loop_ok fuel start c seed c' :
  length start = n → NoDupA Qeq start →
  seed_loop pearsonr rnd n fuel start c = Some (seed, c') →
  seed_ok pearsonr n seed.
Proof.
  revert start c. induction fuel as [|fuel IH]; intros start c Hlen Hnd; simpl;
    destruct (Qgtb _ _) eqn:Hgt; try congruence;
    try (intros [= <- <-]; split; [done|split; [done|by apply Qgtb_false]]).
  pose proof (shuffle_perm rnd start c) as Hp.
  destruct (shuffle rnd start c) as [start' c1]. simpl in Hp.
  apply IH.
  - by rewrite Hp.
  - eapply NoDupA_Qeq_perm; [symmetry; exact Hp|done].
Qed.

(** A pass of the alternating seed loop that raises nothing has
    written the whole of [Mono] into [start]. *)
Lemma altseed_pass start M1 M2 c1 c2 start1 start2 :
  length start = n → Mono_ok n M1 →
  stride_assign 0 start (small n M1) = Ok start1 →
  shuffle_big rnd n M1 c1 = (M2, c2) →
  stride_assign 1 start1 (big n M2) = Ok start2 →
  start2 ≡ₚ M2.
Proof.
  intros Hlen HM1 H1 Hsh H2.
  pose proof (shuffle_big_spec rnd n M1 c1 HM1) as HM2.
  rewrite Hsh in HM2. simpl in HM2.
  assert (Hsm : small n M2 = small n M1).
  { unfold shuffle_big in Hsh.
    pose proof (shuffle_perm rnd (big n M1) c1) as Hp.
    destruct (shuffle rnd (big n M1) c1) as [b cb]. simpl in Hp.
    injection Hsh as <- <-.
    apply (halves_put_big (n / 2) b M1). by rewrite Hp. }
  pose proof (Mono_ok_length n M1 HM1) as HlM1.
  pose proof (Mono_ok_length n M2 HM2) as HlM2.
  pose proof (stride_slots_sum start) as Hsl.
  pose proof (half_bounds n) as Hhalf.
  assert (Hls : length (small n M1) = n / 2).
  { unfold small. rewrite length_take. lia. }
  assert (Hlb : length (big n M2) = n - n / 2).
  { unfold big. rewrite length_drop. lia. }
  pose proof (stride_assign_length _ _ _ _ H1) as Hl1.
  pose proof (stride_slots_sum start1) as Hsl1.
  unfold stride_assign in H1, H2.
  destruct (decide (length (small n M1) = stride_slots 0 start)) as [E1|N1].
  - destruct (decide (length (big n M2) = stride_slots 1 start1)) as [E2|N2].
    + injection H1 as <-. injection H2 as <-.
      transitivity (small n M1 ++ big n M2).
      * apply (proj1 (stride_put_interleave start)); [done|].
        rewrite E2. lia.
      * rewrite <- Hsm. unfold small, big. by rewrite take_drop.
    + destruct (big n M2) as [|b0 [|]] eqn:Eb; try done.
      simpl in *. lia.
  - destruct (small n M1) as [|s0 [|]] eqn:Es; try done.
    destruct (decide (length (big n M2) = stride_slots 1 start1)) as [E2|N2].
    + simpl in *. lia.
    + destruct (big n M2) as [|b0 [|]] eqn:Eb; try done.
      simpl in *. lia.
Qed.

Lemma altseed_loop_ok fuel start M c seed M' c' :
  length start = n → NoDupA Qeq start → Mono_ok n M →
  altseed_loop pearsonr rnd n fuel start M c = Some (Ok (seed, M', c')) →
  seed_ok pearsonr n seed ∧ Mono_ok n M'.
Proof.
  revert start M c.
  induction fuel as [|fuel IH]; intros start M c Hlen Hnd HM; simpl;
    destruct (Qgtb _ _) eqn:Hgt; try congruence;
    try (intros [= <- <- <-]; split; [|done];
         split; [done|split; [done|by apply Qgtb_false]]).
  pose proof (shuffle_small_spec rnd n M c HM) as HM1.
  destruct (shuffle_small rnd n M c) as [M1 c1]. simpl in HM1.
  destruct (stride_assign 0 start (small n M1)) as [start1|] eqn:H1; [|done].
  pose proof (shuffle_big_spec rnd n M1 c1 HM1) as HM2.
  destruct (shuffle_big rnd n M1 c1) as [M2 c2] eqn:Hsh. simpl in HM2.
  destruct (stride_assign 1 start1 (big n M2)) as [start2|] eqn:H2; [|done].
  pose proof (altseed_pass start M1 M2 c1 c2 start1 start2 Hlen HM1 H1 Hsh H2)
    as Hp.
  apply IH; [|  |done].
  - rewrite Hp. by apply Mono_ok_length.
  - eapply NoDupA_Qeq_perm.
    { symmetry. rewrite Hp. by apply Mono_ok_perm. }
    apply linspace_NoDupA. intros _ H. by apply Qeq_bool_iff in H.
Qed.

Lemma seed_good v seed :
  seed_ok pearsonr n seed →
  good pearsonr n (threshold v) seed seed [pearsonr (phase n) seed].
Proof.
  intros (Hlen & Hnd & Hle).
  split; [done|]. split; [simpl; lia|]. split; [|split; [|done]].
  - intros k Hk. assert (k = n) as -> by lia.
    rewrite take_ge by lia.
    assert (last_k n seed = seed) as ->.
    { destruct n as [|m]; [done|]. simpl. rewrite Hlen.
      by replace (S m - S m) with 0 by lia. }
    eapply Qle_lt_trans; [exact Hle|]. by destruct v.
  - by apply NoDupA_norep.
Qed.

End SeedFacts.

(** ** The generators *)

Section GenFacts.

Variable pearsonr : list Q → list Q → Q.
Variable rnd : nat → nat.
Variable n : nat.
Variable leng : nat.

Lemma pool_NoDupA : NoDupA Qeq (pool n).
Proof. apply linspace_NoDupA. intros _ H. by apply Qeq_bool_iff in H. Qed.

Lemma start0_NoDupA : NoDupA Qeq (linspace 0 (inject_Z (Z.of_nat n)) n).
Proof.
  apply linspace_NoDupA. intros Hn H.
  unfold Qeq in H. simpl in H. lia.
Qed.

(** A run that raises nothing has found a seed and left the restart
    loop with its locals in order. *)
Lemma generate_run_ok v fuel r :
  generate_run pearsonr rnd v n leng fuel = Some (Ok r) →
  seed_ok pearsonr n (r_seed r) ∧
  ∃ st, r_final r = Ok st ∧ r_ret r = returned st ∧
        ctl_ok pearsonr n (threshold v) (r_seed r) st ∧ best_ok st.
Proof.
  destruct v; unfold generate_run.
  - unfold shufGen_run.
    destruct (seed_loop _ _ _ _ _ _) as [[seed c]|] eqn:Hs; [|done].
    apply seed_loop_ok in Hs;
      [|apply linspace_length|apply pool_NoDupA].
    destruct (restart _ _ _ _ _ _ _ _) as [final|] eqn:Hr;
      [|intros; discriminate].
    intros [= <-]. split; [exact Hs|].
    apply (restart_ok pearsonr n leng (threshold Pooled)) in Hr
      as (st & -> & Hst & Hbst);
      [|apply (grower_of_grower_ok pearsonr n leng rnd Pooled),
          seed_good, Hs|apply pool_Mono_ok].
    exists st. auto.
  - unfold altshufGen_run.
    destruct (altseed_loop _ _ _ _ _ _ _) as [[[[seed M] c]|]|] eqn:Hs;
      [|intros; discriminate..].
    apply altseed_loop_ok in Hs as [Hs HM];
      [|apply linspace_length|apply start0_NoDupA|apply pool_Mono_ok].
    destruct (restart _ _ _ _ _ _ _ _) as [final|] eqn:Hr;
      [|intros; discriminate].
    intros [= <-]. split; [exact Hs|].
    apply (restart_ok pearsonr n leng (threshold Alternating)) in Hr
      as (st & -> & Hst & Hbst);
      [|apply (grower_of_grower_ok pearsonr n leng rnd Alternating),
          seed_good, Hs|exact HM].
    exists st. auto.
Qed.

Lemma run_ret_good v fuel r seq tr :
  generate_run pearsonr rnd v n leng fuel = Some (Ok r) →
  r_ret r = Ok (seq, tr) →
  seed_ok pearsonr n (r_seed r) ∧
  good pearsonr n (threshold v) (r_seed r) seq tr.
Proof.
  intros Hrun Hret.
  destruct (generate_run_ok v fuel r Hrun) as (Hs & st & _ & Hr & Hst & _).
  split; [exact Hs|]. rewrite Hr in Hret. unfold returned in Hret.
  destruct Hst as (_ & Hc & _).
  destruct (c_corrs st) as [c|] eqn:Ec; [|discriminate].
  injection Hret as <- <-. by apply Hc.
Qed.

Lemma generate_good v fuel seq tr :
  generate pearsonr rnd v n leng fuel = Some (Ok (seq, tr)) →
  ∃ seed, seed_ok pearsonr n seed ∧
          good pearsonr n (threshold v) seed seq tr.
Proof.
  unfold generate, ret_of.
  destruct (generate_run _ _ _ _ _ _) as [[r|]|] eqn:Hrun;
    [|intros; discriminate..].
  intros [= Hret]. exists (r_seed r). by eapply run_ret_good.
Qed.

(** Once a seed is found the generators return or raise: the growth
    loop and the restart loop never run out of their fuel. *)
Lemma generate_run_total v fuel :
  match v with
  | Pooled => is_Some (seed_loop pearsonr rnd n fuel (pool n) 0)
  | Alternating =>
      is_Some (altseed_loop pearsonr rnd n fuel
                 (linspace 0 (inject_Z (Z.of_nat n)) n) (pool n) 0)
  end →
  is_Some (generate_run pearsonr rnd v n leng fuel).
Proof.
  destruct v; unfold generate_run.
  - unfold shufGen_run. fold (pool n). intros [[seed c] Hs]. rewrite Hs.
    apply seed_loop_ok in Hs;
      [|apply linspace_length|apply pool_NoDupA].
    destruct (restart_total pearsonr n leng (threshold Pooled) seed
                (shufAdd pearsonr rnd n leng) 1000 (pool n) c) as [final Hf].
    + apply (grower_of_grower_ok pearsonr n leng rnd Pooled), seed_good, Hs.
    + apply pool_Mono_ok.
    + apply Nat.lt_0_succ.
    + rewrite Hf. eauto.
  - unfold altshufGen_run. fold (pool n). intros [[[[seed M] c]|e] Hs];
      rewrite Hs; [|eauto].
    apply altseed_loop_ok in Hs as [Hs HM];
      [|apply linspace_length|apply start0_NoDupA|apply pool_Mono_ok].
    destruct (restart_total pearsonr n leng (threshold Alternating) seed
                (altshufAdd pearsonr rnd n leng) 10 M c) as [final Hf].
    + apply (grower_of_grower_ok pearsonr n leng rnd Alternating), seed_good, Hs.
    + exact HM.
    + apply Nat.lt_0_succ.
    + rewrite Hf. eauto.
Qed.

End GenFacts.

(** ** Counting rounds and accepted elements *)

Section CountFacts.

Variable pearsonr : list Q → list Q → Q.
Variable rnd : nat → nat.
Variable n : nat.
Variable leng : nat.

Lemma try_add_len thr g a :
  length (try_add pearsonr n thr g a).1.1.1 + a.2 =
    length a.1.1 + (try_add pearsonr n thr g a).1.2.
Proof.
  destruct a as [[l c] k].
  destruct (try_add_cases pearsonr n thr g l c k) as [->|(_ & _ & ->)]; simpl;
    [done|]. rewrite length_app. simpl. lia.
Qed.

Lemma scan_all_len thr shuf a :
  length (scan_all pearsonr n thr shuf a).1.1 + a.2 =
    length a.1.1 + (scan_all pearsonr n thr shuf a).2.
Proof.
  revert a. unfold scan_all. induction shuf as [|g shuf IH]; intros a; simpl;
    [done|].
  pose proof (try_add_len thr g a). specialize (IH (try_add pearsonr n thr g a).1).
  lia.
Qed.

Lemma scan_first_len thr shuf a :
  length (scan_first pearsonr n thr shuf a).1.1 + a.2 =
    length a.1.1 + (scan_first pearsonr n thr shuf a).2.
Proof.
  revert a. induction shuf as [|g shuf IH]; intros a; simpl; [done|].
  pose proof (try_add_len thr g a) as H.
  destruct (try_add pearsonr n thr g a) as [a' [|]]; simpl in *; [done|].
  specialize (IH a'). lia.
Qed.

Lemma round_of_count v st :
  count (round_of pearsonr rnd v n st) = S (count st).
Proof.
  destruct v; simpl.
  - unfold shufAdd_round. destruct (shuffle _ _ _) as [shuf c].
    by destruct (scan_all _ _ _ _ _) as [[l c'] k].
  - unfold altshufAdd_round. destruct (shuffle_small _ _ _ _) as [M1 c1].
    destruct (shuffle_big _ _ _ _) as [M2 c2].
    by destruct (scan_first _ _ _ (big n M2) _) as [[l c'] k].
Qed.

Lemma round_of_length v st :
  length (optGs (round_of pearsonr rnd v n st)) + adds st =
    length (optGs st) + adds (round_of pearsonr rnd v n st).
Proof.
  destruct v; simpl.
  - unfold shufAdd_round. destruct (shuffle _ _ _) as [shuf c].
    pose proof (scan_all_len (1 # 10) shuf (optGs st, corrs st, adds st)) as H.
    destruct (scan_all _ _ _ _ _) as [[l c'] k]. simpl in *. done.
  - unfold altshufAdd_round. destruct (shuffle_small _ _ _ _) as [M1 c1].
    destruct (shuffle_big _ _ _ _) as [M2 c2].
    pose proof (scan_first_len (5 # 100) (small n M2)
                  (optGs st, corrs st, adds st)) as H1.
    pose proof (scan_first_len (5 # 100) (big n M2)
                  (scan_first pearsonr n (5 # 100) (small n M2)
                     (optGs st, corrs st, adds st))) as H2.
    destruct (scan_first _ _ _ (big n M2) _) as [[l c'] k]. simpl in *. lia.
Qed.

Lemma grow_loop_count v fuel st st' :
  grow_loop leng (round_of pearsonr rnd v n) fuel st = Some st' →
  count st ≤ count st'.
Proof.
  revert st. induction fuel as [|fuel IH]; intros st; simpl;
    destruct (decide (length (optGs st) < leng)); try congruence;
    try (intros [= <-]; lia).
  pose proof (round_of_count v st) as Hc.
  destruct (decide _); [intros [= <-]; lia|].
  intros H%IH. lia.
Qed.

(** ** The pooled variant never writes [Mono] *)

Lemma shufAdd_round_Mono st : Mono (shufAdd_round pearsonr rnd n st) = Mono st.
Proof.
  unfold shufAdd_round. destruct (shuffle _ _ _) as [shuf c].
  by destruct (scan_all _ _ _ _ _) as [[l c'] k].
Qed.

Lemma shufAdd_Mono l c M k g :
  shufAdd pearsonr rnd n leng l c M k = Some g → Mono g = M.
Proof.
  unfold shufAdd. generalize (S leng) as fuel.
  change M with (Mono (GrowState l c 0 0 M k)) at 2.
  generalize (GrowState l c 0 0 M k) as st. intros st fuel. revert st.
  induction fuel as [|fuel IH]; intros st; simpl;
    destruct (decide (length (optGs st) < leng)); try congruence;
    try (by intros [= <-]).
  destruct (decide _).
  - intros [= <-]. apply shufAdd_round_Mono.
  - intros H%IH. by rewrite H, shufAdd_round_Mono.
Qed.

Lemma restart_loop_Mono_pooled cap seed fuel st st' :
  restart_loop pearsonr n leng (shufAdd pearsonr rnd n leng) cap seed fuel st
    = Some (Ok st') →
  c_Mono st' = c_Mono st.
Proof.
  revert st. induction fuel as [|fuel IH]; intros st; simpl;
    destruct (decide (length (c_optGs st) < leng)); try congruence;
    try (by intros [= <-]).
  destruct (shufAdd _ _ _ _ _ _ _ _) as [g|] eqn:Hg; [|done].
  apply shufAdd_Mono in Hg.
  destruct (track_best _ _ _ _) as [lenGs best].
  destruct (decide _).
  - destruct best as [[b bc]|]; [|done]. by intros [= <-].
  - intros H%IH. by rewrite H.
Qed.

Lemma restart_Mono_pooled cap seed M c st' :
  restart pearsonr n leng (shufAdd pearsonr rnd n leng) cap seed M c
    = Some (Ok st') →
  c_Mono st' = M.
Proof. unfold restart. by intros H%restart_loop_Mono_pooled. Qed.

(** ** A call that asks for no more than the seed *)

Lemma restart_loop_done grower cap seed fuel st :
  ¬ length (c_optGs st) < leng →
  restart_loop pearsonr n leng grower cap seed fuel st = Some (Ok st).
Proof. intros H. destruct fuel; simpl; by destruct (decide _). Qed.

Lemma stride_assign_raise off dst src e :
  stride_assign off dst src = Raise e →
  ∃ a b, a ≠ b ∧ e = BroadcastValueError a b.
Proof.
  unfold stride_assign. destruct (decide _) as [|Hne]; [done|].
  destruct src as [|s [|]]; intros [= <-]; eauto.
Qed.

End CountFacts.

(** ** Odd [n] in the alternating variant, and calls for the seed only *)

Section EdgeFacts.

Variable pearsonr : list Q → list Q → Q.
Variable rnd : nat → nat.
Variable n : nat.
Variable leng : nat.

(** Both strided assignments of a pass go through only when the two
    halves of [Mono] are equally long. *)
Lemma altseed_pass_even start M1 M2 start1 start2 :
  length start = n → Mono_ok n M1 → Mono_ok n M2 →
  stride_assign 0 start (small n M1) = Ok start1 →
  stride_assign 1 start1 (big n M2) = Ok start2 →
  n = 2 * (n / 2).
Proof.
  intros Hlen HM1 HM2 H1 H2.
  pose proof (Mono_ok_length n M1 HM1) as HlM1.
  pose proof (Mono_ok_length n M2 HM2) as HlM2.
  pose proof (stride_slots_sum start) as Hsl.
  pose proof (half_bounds n) as Hhalf.
  assert (Hls : length (small n M1) = n / 2).
  { unfold small. rewrite length_take. lia. }
  assert (Hlb : length (big n M2) = n - n / 2).
  { unfold big. rewrite length_drop. lia. }
  pose proof (stride_assign_length _ _ _ _ H1) as Hl1.
  pose proof (stride_slots_sum start1) as Hsl1.
  unfold stride_assign in H1, H2.
  destruct (decide (length (small n M1) = stride_slots 0 start)) as [E1|N1];
    destruct (decide (length (big n M2) = stride_slots 1 start1)) as [E2|N2];
    repeat match goal with
      | H : match ?l with _ => _ end = Ok _ |- _ =>
          destruct l as [|? [|]] eqn:?; try discriminate
      end;
    cbn [length] in *; lia.
Qed.

Lemma altseed_loop_odd fuel start M c :
  Nat.odd n = true → length start = n → Mono_ok n M →
  (1 # 100 < Qabs (pearsonr (phase n) start))%Q →
  ∃ a b, a ≠ b ∧
    altseed_loop pearsonr rnd n (S fuel) start M c =
      Some (Raise (BroadcastValueError a b)).
Proof.
  intros Hodd Hlen HM Hgt. simpl.
  apply Qltb_true in Hgt. unfold Qgtb. rewrite Hgt.
  pose proof (shuffle_small_spec rnd n M c HM) as HM1.
  destruct (shuffle_small rnd n M c) as [M1 c1]. simpl in HM1.
  destruct (stride_assign 0 start (small n M1)) as [start1|e] eqn:H1.
  - pose proof (shuffle_big_spec rnd n M1 c1 HM1) as HM2.
    destruct (shuffle_big rnd n M1 c1) as [M2 c2]. simpl in HM2.
    destruct (stride_assign 1 start1 (big n M2)) as [start2|e] eqn:H2.
    + pose proof (altseed_pass_even start M1 M2 start1 start2
                    Hlen HM1 HM2 H1 H2) as Heven.
      apply Nat.odd_spec in Hodd as [m Hm]. lia.
    + apply stride_assign_raise in H2 as (a & b & Hab & ->). eauto.
  - apply stride_assign_raise in H1 as (a & b & Hab & ->). eauto.
Qed.

Lemma altseed_loop_raise fuel start M c e :
  altseed_loop pearsonr rnd n fuel start M c = Some (Raise e) →
  ∃ a b, a ≠ b ∧ e = BroadcastValueError a b.
Proof.
  revert start M c. induction fuel as [|fuel IH]; intros start M c; simpl;
    destruct (Qgtb _ _); try congruence.
  destruct (shuffle_small rnd n M c) as [M1 c1].
  destruct (stride_assign 0 start (small n M1)) as [start1|e1] eqn:H1.
  - destruct (shuffle_big rnd n M1 c1) as [M2 c2].
    destruct (stride_assign 1 start1 (big n M2)) as [start2|e2] eqn:H2.
    + apply IH.
    + intros [= <-]. by eapply stride_assign_raise.
  - intros [= <-]. by eapply stride_assign_raise.
Qed.

Lemma restart_seed_only grower cap seed M c :
  leng ≤ length seed →
  restart pearsonr n leng grower cap seed M c =
    Some (Ok (CtlState seed None 0 [] None M c)).
Proof.
  intros Hle. unfold restart. apply restart_loop_done. simpl. lia.
Qed.

End EdgeFacts.

(** * The properties of the generators *)

(** C1. In every sequence a generator returns, each window of [n]
    elements that ends at a position [i >= n] correlates with the
    reference index with absolute value below the variant's threshold:
    0.1 for the pooled variant, 0.05 for the alternating one. *)
Theorem C1_correlation_bound pearsonr rnd v n leng fuel seq tr i :
  generate pearsonr rnd v n leng fuel = Some (Ok (seq, tr)) →
  n ≤ i < length seq →
  (Qabs (pearsonr (phase n) (window n i seq)) < threshold v)%Q.
Proof.
  intros Hgen Hi.
  destruct (generate_good _ _ _ _ _ _ _ _ Hgen)
    as (seed & (Hlen & _) & (_ & _ & Hwin & _ & H0)).
  destruct (decide (n = 0)) as [->|Hn].
  { rewrite (H0 eq_refl) in Hi. lia. }
  rewrite <- last_k_take_window by lia. apply Hwin. lia.
Qed.

(** C2. In every sequence a generator returns, the value at a position
    [i >= n/2] differs from the values at the positions [i - n/2] to
    [i - 1]. *)
Theorem C2_anti_repetition pearsonr rnd v n leng fuel seq tr i j x y :
  generate pearsonr rnd v n leng fuel = Some (Ok (seq, tr)) →
  n / 2 ≤ i → i - n / 2 ≤ j → j < i →
  seq !! i = Some x → seq !! j = Some y →
  ¬ (x == y)%Q.
Proof.
  intros Hgen Hi Hj Hji Hx Hy.
  destruct (generate_good _ _ _ _ _ _ _ _ Hgen)
    as (seed & _ & (_ & _ & _ & Hrep & _)).
  eapply Hrep; eauto. lia.
Qed.

(** C5. A returned trace has one entry for the seed and one for each
    element accepted after it: its length is [1 + (len(sequence) - n)]. *)
Theorem C5_trace_length pearsonr rnd v n leng fuel seq tr :
  generate pearsonr rnd v n leng fuel = Some (Ok (seq, tr)) →
  n ≤ length seq →
  length tr = 1 + (length seq - n).
Proof.
  intros Hgen Hn.
  destruct (generate_good _ _ _ _ _ _ _ _ Hgen)
    as (seed & (Hlen & _) & (_ & Hl & _)).
  lia.
Qed.

(** C7. The seed that the seed search of either variant ends with
    correlates with the reference index with absolute value at most
    0.01. *)
Theorem C7_seed_correlation pearsonr rnd v n leng fuel r :
  generate_run pearsonr rnd v n leng fuel = Some (Ok r) →
  (Qabs (pearsonr (phase n) (r_seed r)) <= 1 # 100)%Q.
Proof.
  intros Hrun.
  by destruct (generate_run_ok _ _ _ _ _ _ _ Hrun) as ((_ & _ & Hle) & _).
Qed.

(** C10. The first [n] elements of a returned sequence are the seed
    found by the seed search. *)
Theorem C10_seed_prefix pearsonr rnd v n leng fuel r seq tr :
  generate_run pearsonr rnd v n leng fuel = Some (Ok r) →
  r_ret r = Ok (seq, tr) →
  take n seq = r_seed r.
Proof.
  intros Hrun Hret.
  destruct (run_ret_good _ _ _ _ _ _ _ _ _ Hrun Hret)
    as ((Hlen & _) & ([k ->] & _)).
  rewrite <- Hlen. apply take_app_length.
Qed.

(** C3 (the code does otherwise).  A call whose target length is at
    most [n] does not return: its restart loop is not entered, [corrs]
    is never bound, and the [return] on line 73 (152) raises
    [UnboundLocalError]; the alternating variant can also have failed
    before, in its seed loop. *)
Theorem C3_seed_only_raises pearsonr rnd v n leng fuel res :
  leng ≤ n →
  generate pearsonr rnd v n leng fuel = Some res →
  res = Raise (UnboundLocalError Lcorrs) ∨
  (v = Alternating ∧ ∃ a b, a ≠ b ∧ res = Raise (BroadcastValueError a b)).
Proof.
  intros Hle. unfold generate, generate_run. destruct v.
  - unfold shufGen_run.
    destruct (seed_loop _ _ _ _ _ _) as [[seed c]|] eqn:Hs; [|done].
    apply seed_loop_ok in Hs as (Hlen & _);
      [|apply linspace_length|apply pool_NoDupA].
    rewrite restart_seed_only by lia. simpl. intros [= <-]. by left.
  - unfold altshufGen_run.
    destruct (altseed_loop _ _ _ _ _ _ _) as [[[[seed M] c]|e]|] eqn:Hs;
      [| |done].
    + apply altseed_loop_ok in Hs as [(Hlen & _) HM];
        [|apply linspace_length|apply start0_NoDupA|apply pool_Mono_ok].
      rewrite restart_seed_only by lia. simpl. intros [= <-]. by left.
    + simpl. intros [= <-]. right. split; [done|].
      apply altseed_loop_raise in Hs as (a & b & ? & ->). eauto.
Qed.

(** C4 (amended).  The best result is replaced exactly when the length
    of the attempt just completed is at least the greatest length of the
    attempts before it: by a new maximum and by a tie alike, so that of
    two attempts of the same greatest length the later one is kept. *)
Theorem C4_best_tracking lenGs best (optGs corrs : list Q) :
  track_best lenGs best optGs corrs =
  (lenGs ++ [length optGs],
   if decide (Forall (λ m, m ≤ length optGs) lenGs) then Some (optGs, corrs)
   else best).
Proof.
  rewrite track_best_spec. f_equal.
  assert (H : max_list lenGs ≤ length optGs ↔
              Forall (λ m, m ≤ length optGs) lenGs).
  { induction lenGs as [|m ms IH]; simpl.
    - split; [constructor|lia].
    - rewrite Forall_cons, <- IH. lia. }
  destruct (decide (max_list _ ≤ _)), (decide (Forall _ _)); tauto.
Qed.

(** C6 (amended).  In either variant, after a round that accepted
    nothing and left the list short of the target, the attempt ends at
    once when the rounds so far had accepted no more elements than there
    were rounds ([adds <= count] before the round); when they had
    accepted more, the loop goes on to at least one more round. *)
Theorem C6_stall_rule pearsonr rnd v n leng fuel st :
  length (optGs st) < leng →
  adds (round_of pearsonr rnd v n st) = adds st →
  (adds st ≤ count st →
     grow_loop leng (round_of pearsonr rnd v n) (S fuel) st =
       Some (round_of pearsonr rnd v n st)) ∧
  (count st < adds st →
     grow_loop leng (round_of pearsonr rnd v n) (S fuel) st =
       grow_loop leng (round_of pearsonr rnd v n) fuel
         (round_of pearsonr rnd v n st) ∧
     ∀ st', grow_loop leng (round_of pearsonr rnd v n) (S fuel) st = Some st' →
            count st + 2 ≤ count st').
Proof.
  intros Hlen Hz.
  pose proof (round_of_count pearsonr rnd n v st) as Hc.
  pose proof (round_of_length pearsonr rnd n v st) as Hl.
  simpl. destruct (decide (length (optGs st) < leng)); [|done].
  split; intros Hcmp; destruct (decide _); try lia; [done|].
  split; [done|]. intros st'.
  destruct fuel as [|fuel]; simpl;
    destruct (decide (length (optGs _) < leng)); try lia; [done|].
  pose proof (round_of_count pearsonr rnd n v (round_of pearsonr rnd v n st))
    as Hc2.
  destruct (decide _); [intros [= <-]; lia|].
  intros H%grow_loop_count. lia.
Qed.

(** C8 (amended).  No configuration is checked.  With an odd [n] the
    alternating variant, once its seed loop is entered, fails in the first
    pass of that loop with numpy's broadcasting [ValueError] from a
    strided assignment, whatever the target length. *)
Theorem C8_odd_n_broadcast pearsonr rnd n leng fuel :
  Nat.odd n = true →
  (1 # 100 <
   Qabs (pearsonr (phase n) (linspace 0 (inject_Z (Z.of_nat n)) n)))%Q →
  ∃ a b, a ≠ b ∧
    altshufGen pearsonr rnd n leng (S fuel) =
      Some (Raise (BroadcastValueError a b)).
Proof.
  intros Hodd Hgt.
  destruct (altseed_loop_odd pearsonr rnd n fuel
              (linspace 0 (inject_Z (Z.of_nat n)) n) (pool n) 0 Hodd
              (linspace_length _ _ _) (pool_Mono_ok n) Hgt)
    as (a & b & Hab & Hs).
  exists a, b. split; [done|].
  unfold altshufGen, altshufGen_run. fold (pool n). by rewrite Hs.
Qed.

(** C9 (amended).  The pooled variant leaves [Mono] as it was built.
    The alternating variant shuffles the two halves of [Mono] in place:
    at the end of a run each half holds the values it was built with, in
    some order. *)
Theorem C9_value_pool pearsonr rnd v n leng fuel r st :
  generate_run pearsonr rnd v n leng fuel = Some (Ok r) →
  r_final r = Ok st →
  match v with
  | Pooled => c_Mono st = pool n
  | Alternating =>
      small n (c_Mono st) ≡ₚ small n (pool n) ∧
      big n (c_Mono st) ≡ₚ big n (pool n)
  end.
Proof.
  intros Hrun Hfin. destruct v.
  - unfold generate_run, shufGen_run in Hrun.
    destruct (seed_loop _ _ _ _ _ _) as [[seed c]|]; [|done].
    destruct (restart _ _ _ _ _ _ _ _) as [final|] eqn:Hr; [|discriminate].
    injection Hrun as <-. simpl in Hfin. subst final.
    by apply restart_Mono_pooled in Hr.
  - destruct (generate_run_ok _ _ _ _ _ _ _ Hrun)
      as (_ & st' & Hfin' & _ & (HM & _) & _).
    rewrite Hfin in Hfin'. by injection Hfin' as <-.
Qed.

(** * The model run on concrete tapes *)

(** The pooled variant asked for the seed only, [shufGen(8, 8)]: the
    seed is found and the [return] raises. *)
Lemma C3_witness :
  8 ≤ 8 ∧
  generate pearson_q (tapeS 3) Pooled 8 8 10 =
    Some (Raise (UnboundLocalError Lcorrs)) ∧
  (Raise (UnboundLocalError Lcorrs) = Raise (UnboundLocalError Lcorrs)
     :> result (list Q * list Q) ∨
   (Pooled = Alternating ∧
    ∃ a b, a ≠ b ∧
      Raise (UnboundLocalError Lcorrs) = Raise (BroadcastValueError a b)
        :> result (list Q * list Q))).
Proof.
  assert (H : generate pearson_q (tapeS 3) Pooled 8 8 10 =
              Some (Raise (UnboundLocalError Lcorrs)))
    by (vm_compute; reflexivity).
  split; [lia|]. split; [exact H|].
  apply (C3_seed_only_raises pearson_q (tapeS 3) Pooled 8 8 10 _ (le_n 8) H).
Defined.

(** A run of the alternating variant that reaches its target. *)
Lemma C1_witness :
  ∃ seq tr,
    generate pearson_q (tapeS 3) Alternating 8 10 10 = Some (Ok (seq, tr)) ∧
    seq = sevenths [305; 575; 125; 395; 215; 665; 35; 485; 395; 125]%Z ∧
    8 ≤ 9 < length seq ∧
    (Qabs (pearson_q (phase 8) (window 8 9 seq)) < threshold Alternating)%Q.
Proof.
  eexists _, _.
  split; [vm_compute; reflexivity|].
  split; [vm_compute; reflexivity|].
  split; [simpl; lia|].
  eapply (C1_correlation_bound pearson_q (tapeS 3) Alternating 8 10 10).
  - vm_compute; reflexivity.
  - simpl. lia.
Defined.

Lemma C2_witness :
  ∃ seq tr,
    generate pearson_q (tapeS 3) Alternating 8 10 10 = Some (Ok (seq, tr)) ∧
    8 / 2 ≤ 9 ∧ 9 - 8 / 2 ≤ 5 ∧ 5 < 9 ∧
    seq !! 9 = Some (125 # 7) ∧ seq !! 5 = Some (665 # 7) ∧
    ¬ (125 # 7 == 665 # 7)%Q.
Proof.
  eexists _, _.
  split; [vm_compute; reflexivity|].
  split; [vm_compute; lia|]. split; [vm_compute; lia|]. split; [lia|].
  split; [reflexivity|]. split; [reflexivity|].
  eapply (C2_anti_repetition pearson_q (tapeS 3) Alternating 8 10 10 _ _ 9 5).
  - vm_compute; reflexivity.
  - vm_compute; lia.
  - vm_compute; lia.
  - lia.
  - reflexivity.
  - reflexivity.
Defined.

(** A run of the pooled variant that reaches its target. *)
Lemma C5_witness :
  ∃ seq tr,
    generate pearson_q (tapeS 119) Pooled 8 10 10 = Some (Ok (seq, tr)) ∧
    seq = sevenths [485; 125; 575; 305; 35; 395; 665; 215; 125; 485]%Z ∧
    8 ≤ length seq ∧
    length tr = 1 + (length seq - 8).
Proof.
  eexists _, _.
  split; [vm_compute; reflexivity|].
  split; [vm_compute; reflexivity|].
  split; [simpl; lia|].
  eapply (C5_trace_length pearson_q (tapeS 119) Pooled 8 10 10).
  - vm_compute; reflexivity.
  - simpl. lia.
Defined.

Lemma C7_witness :
  ∃ r,
    generate_run pearson_q (tapeS 3) Alternating 8 10 10 = Some (Ok r) ∧
    r_seed r = sevenths [305; 575; 125; 395; 215; 665; 35; 485]%Z ∧
    (Qabs (pearson_q (phase 8) (r_seed r)) <= 1 # 100)%Q.
Proof.
  eexists.
  split; [vm_compute; reflexivity|].
  split; [vm_compute; reflexivity|].
  eapply (C7_seed_correlation pearson_q (tapeS 3) Alternating 8 10 10).
  vm_compute; reflexivity.
Defined.

Lemma C10_witness :
  ∃ r seq tr,
    generate_run pearson_q (tapeS 119) Pooled 8 10 10 = Some (Ok r) ∧
    r_ret r = Ok (seq, tr) ∧
    seq = sevenths [485; 125; 575; 305; 35; 395; 665; 215; 125; 485]%Z ∧
    take 8 seq = r_seed r.
Proof.
  eexists _, _, _.
  split; [vm_compute; reflexivity|].
  split; [reflexivity|].
  split; [vm_compute; reflexivity|].
  eapply (C10_seed_prefix pearson_q (tapeS 119) Pooled 8 10 10).
  - vm_compute; reflexivity.
  - reflexivity.
Defined.

(** C4 (as stated, refuted).  Alternating variant, [n = 8], target 20,
    tape 27: each of the ten attempts ends with 14 elements.  Were an
    earlier result kept on a tie, the call would return the first
    attempt's list; it returns another one, which differs from it at
    index 11. *)
Lemma C4_counterexample :
  ∃ M c g1 r st bc,
    altseed_loop pearson_q (tapeS 27) 8 10 (linspace 0 8 8) (pool 8) 0 =
      Some (Ok (sevenths [125; 575; 215; 665; 305; 395; 35; 485]%Z, M, c)) ∧
    altshufAdd pearson_q (tapeS 27) 8 20
      (sevenths [125; 575; 215; 665; 305; 395; 35; 485]%Z)
      [pearson_q (phase 8) (sevenths [125; 575; 215; 665; 305; 395; 35; 485]%Z)]
      M c = Some g1 ∧
    optGs g1 =
      sevenths [125; 575; 215; 665; 305; 395; 35; 485;
                665; 215; 575; 125; 395; 305]%Z ∧
    generate_run pearson_q (tapeS 27) Alternating 8 20 10 = Some (Ok r) ∧
    r_final r = Ok st ∧
    c_lenGs st = replicate 10 14 ∧
    r_ret r =
      Ok (sevenths [125; 575; 215; 665; 305; 395; 35; 485;
                    665; 215; 575; 35; 395; 305]%Z, bc) ∧
    ¬ (125 # 7 == 35 # 7)%Q.
Proof.
  eexists _, _, _, _, _, _.
  split; [vm_compute; reflexivity|].
  split; [vm_compute; reflexivity|].
  split; [vm_compute; reflexivity|].
  split; [vm_compute; reflexivity|].
  split; [reflexivity|].
  split; [vm_compute; reflexivity|].
  split; [vm_compute; reflexivity|].
  intros H. unfold Qeq in H. simpl in H. lia.
Qed.

(** C6 (as stated, refuted).  Pooled variant, [n = 8], target 20, tape
    119: the first round accepts two elements, the second none, and the
    attempt goes on to a third round.  Alternating variant, tape 27:
    after four rounds six elements are accepted, the fifth and the sixth
    round accept none, and the attempt ends only after the seventh. *)
Lemma C6_counterexample :
  (∃ seed c st1 st2 g,
     seed_loop pearson_q (tapeS 119) 8 10 (pool 8) 0 = Some (seed, c) ∧
     st1 = shufAdd_round pearson_q (tapeS 119) 8
             (GrowState seed [pearson_q (phase 8) seed] 0 0 (pool 8) c) ∧
     st2 = shufAdd_round pearson_q (tapeS 119) 8 st1 ∧
     (count st1, adds st1) = (1, 2) ∧
     (count st2, adds st2) = (2, 2) ∧
     length (optGs st2) = 10 ∧
     shufAdd pearson_q (tapeS 119) 8 20 seed [pearson_q (phase 8) seed]
       (pool 8) c = Some g ∧
     (count g, adds g) = (3, 2)) ∧
  (∃ seed M c st4 st5 g,
     altseed_loop pearson_q (tapeS 27) 8 10 (linspace 0 8 8) (pool 8) 0 =
       Some (Ok (seed, M, c)) ∧
     st4 = Nat.iter 4 (altshufAdd_round pearson_q (tapeS 27) 8)
             (GrowState seed [pearson_q (phase 8) seed] 0 0 M c) ∧
     st5 = altshufAdd_round pearson_q (tapeS 27) 8 st4 ∧
     (count st4, adds st4) = (4, 6) ∧
     (count st5, adds st5) = (5, 6) ∧
     length (optGs st5) = 14 ∧
     altshufAdd pearson_q (tapeS 27) 8 20 seed [pearson_q (phase 8) seed]
       M c = Some g ∧
     (count g, adds g) = (7, 6)).
Proof.
  split.
  - eexists _, _, _, _, _.
    split; [vm_compute; reflexivity|].
    split; [vm_compute; reflexivity|].
    split; [vm_compute; reflexivity|].
    split; [reflexivity|]. split; [reflexivity|]. split; [reflexivity|].
    split; [vm_compute; reflexivity|]. reflexivity.
  - eexists _, _, _, _, _, _.
    split; [vm_compute; reflexivity|].
    split; [vm_compute; reflexivity|].
    split; [vm_compute; reflexivity|].
    split; [reflexivity|]. split; [reflexivity|]. split; [reflexivity|].
    split; [vm_compute; reflexivity|]. reflexivity.
Qed.

(** The state after the first round of that pooled attempt: the next
    round accepts nothing, more had been accepted than there were
    rounds, and the attempt does not end with that round. *)
Lemma C6_witness :
  ∃ seed c st,
    seed_loop pearson_q (tapeS 119) 8 10 (pool 8) 0 = Some (seed, c) ∧
    st = shufAdd_round pearson_q (tapeS 119) 8
           (GrowState seed [pearson_q (phase 8) seed] 0 0 (pool 8) c) ∧
    length (optGs st) < 20 ∧
    adds (round_of pearson_q (tapeS 119) Pooled 8 st) = adds st ∧
    count st < adds st ∧
    ∀ st', grow_loop 20 (round_of pearson_q (tapeS 119) Pooled 8) 20 st
             = Some st' →
           count st + 2 ≤ count st'.
Proof.
  eexists _, _, _.
  split; [vm_compute; reflexivity|].
  split; [vm_compute; reflexivity|].
  match goal with |- length (optGs ?st) < 20 ∧ _ =>
    assert (Hl : length (optGs st) < 20) by (vm_compute; lia);
    assert (Hz : adds (round_of pearson_q (tapeS 119) Pooled 8 st) = adds st)
      by (vm_compute; reflexivity);
    assert (Hc : count st < adds st) by (vm_compute; lia);
    pose proof (C6_stall_rule pearson_q (tapeS 119) Pooled 8 20 19 st Hl Hz)
      as [_ Hgo]
  end.
  split; [exact Hl|]. split; [exact Hz|]. split; [exact Hc|].
  exact (proj2 (Hgo Hc)).
Defined.

(** C8 (as stated, refuted).  A target length below [n],
    [shufGen(4, 2)]: the call raises [UnboundLocalError], which is no
    configuration error. *)
Lemma C8_counterexample :
  generate pearson_q (tapeS 3) Pooled 4 2 10 =
    Some (Raise (UnboundLocalError Lcorrs)) ∧
  ¬ fails_with_configuration_error (generate pearson_q (tapeS 3) Pooled 4 2 10).
Proof.
  assert (H : generate pearson_q (tapeS 3) Pooled 4 2 10 =
              Some (Raise (UnboundLocalError Lcorrs)))
    by (vm_compute; reflexivity).
  split; [exact H|]. rewrite H. intros (e & [= <-] & Hk). discriminate.
Qed.

(** [altshufGen(3, 7)]. *)
Lemma C8_witness :
  Nat.odd 3 = true ∧
  (1 # 100 <
   Qabs (pearson_q (phase 3) (linspace 0 (inject_Z (Z.of_nat 3)) 3)))%Q ∧
  ∃ a b, a ≠ b ∧
    altshufGen pearson_q tape0 3 7 1 = Some (Raise (BroadcastValueError a b)).
Proof.
  assert (Hgt : (1 # 100 <
     Qabs (pearson_q (phase 3) (linspace 0 (inject_Z (Z.of_nat 3)) 3)))%Q)
    by (vm_compute; reflexivity).
  split; [reflexivity|]. split; [exact Hgt|].
  exact (C8_odd_n_broadcast pearson_q tape0 3 7 0 eq_refl Hgt).
Defined.

(** C9 (as stated, refuted).  Alternating variant, [n = 4], target 12:
    at the end of the run the values 65 and 95 of [Mono] have changed
    places. *)
Lemma C9_counterexample :
  ∃ r st,
    generate_run pearson_q tape0 Alternating 4 12 10 = Some (Ok r) ∧
    r_final r = Ok st ∧
    pool 4 = [15 # 3; 105 # 3; 195 # 3; 285 # 3] ∧
    c_Mono st = [15 # 3; 105 # 3; 285 # 3; 195 # 3] ∧
    ¬ (195 # 3 == 285 # 3)%Q.
Proof.
  eexists _, _.
  split; [vm_compute; reflexivity|].
  split; [reflexivity|].
  split; [vm_compute; reflexivity|].
  split; [reflexivity|].
  intros H. unfold Qeq in H. simpl in H. lia.
Qed.

Lemma C9_witness :
  ∃ r st,
    generate_run pearson_q tape0 Alternating 4 12 10 = Some (Ok r) ∧
    r_final r = Ok st ∧
    small 4 (c_Mono st) ≡ₚ small 4 (pool 4) ∧
    big 4 (c_Mono st) ≡ₚ big 4 (pool 4).
Proof.
  eexists _, _.
  split; [vm_compute; reflexivity|].
  split; [reflexivity|].
  eapply (C9_value_pool pearson_q tape0 Alternating 4 12 10).
  - vm_compute; reflexivity.
  - reflexivity.
Defined.

(** * Further properties of the generators *)

(** ** Properties kept by every accepted append *)

Section ClosureFacts.

Variable pearsonr : list Q → list Q → Q.
Variable rnd : nat → nat.
Variable n : nat.
Variable leng : nat.

Lemma try_add_closed v P g l c k :
  step_closed pearsonr n v P → g ∈ pool n → P l c →
  P (try_add pearsonr n (threshold v) g (l, c, k)).1.1.1
    (try_add pearsonr n (threshold v) g (l, c, k)).1.1.2.
Proof.
  intros Hstep Hg HP.
  destruct (try_add_cases pearsonr n (threshold v) g l c k)
    as [->|(Hin & Hlt & ->)]; simpl; [done|]. by apply Hstep.
Qed.

Lemma scan_all_closed v P shuf a :
  step_closed pearsonr n v P → Forall (λ g, g ∈ pool n) shuf →
  P a.1.1 a.1.2 →
  P (scan_all pearsonr n (threshold v) shuf a).1.1
    (scan_all pearsonr n (threshold v) shuf a).1.2.
Proof.
  intros Hstep Hshuf. revert a. unfold scan_all.
  induction Hshuf as [|g shuf Hg _ IH]; intros a HP; simpl; [done|].
  apply IH. destruct a as [[l c] k]. by apply try_add_closed.
Qed.

Lemma scan_first_closed v P shuf a :
  step_closed pearsonr n v P → Forall (λ g, g ∈ pool n) shuf →
  P a.1.1 a.1.2 →
  P (scan_first pearsonr n (threshold v) shuf a).1.1
    (scan_first pearsonr n (threshold v) shuf a).1.2.
Proof.
  intros Hstep Hshuf. revert a.
  induction Hshuf as [|g shuf Hg _ IH]; intros a HP; simpl; [done|].
  assert (H : P (try_add pearsonr n (threshold v) g a).1.1.1
                (try_add pearsonr n (threshold v) g a).1.1.2).
  { destruct a as [[l c] k]. by apply try_add_closed. }
  destruct (try_add _ _ _ _ a) as [a' [|]]; simpl in *; [done|].
  by apply IH.
Qed.

Lemma round_of_Mono_ok v st :
  Mono_ok n (Mono st) → Mono_ok n (Mono (round_of pearsonr rnd v n st)).
Proof.
  intros HM. destruct v; simpl.
  - by rewrite shufAdd_round_Mono.
  - unfold altshufAdd_round.
    pose proof (shuffle_small_spec rnd n (Mono st) (cur st) HM) as HM1.
    destruct (shuffle_small rnd n (Mono st) (cur st)) as [M1 c1]. simpl in HM1.
    pose proof (shuffle_big_spec rnd n M1 c1 HM1) as HM2.
    destruct (shuffle_big rnd n M1 c1) as [M2 c2]. simpl in HM2.
    by destruct (scan_first _ _ _ (big n M2) _) as [[l c'] k].
Qed.

Lemma Mono_ok_Forall M : Mono_ok n M → Forall (λ g, g ∈ pool n) M.
Proof.
  intros HM%Mono_ok_perm. apply Forall_forall. intros x Hx. by rewrite <- HM.
Qed.

Lemma round_of_closed v P st :
  step_closed pearsonr n v P → Mono_ok n (Mono st) →
  P (optGs st) (corrs st) →
  P (optGs (round_of pearsonr rnd v n st)) (corrs (round_of pearsonr rnd v n st)).
Proof.
  intros Hstep HM HP. destruct v; simpl.
  - unfold shufAdd_round.
    pose proof (shuffle_perm rnd (Mono st) (cur st)) as Hp.
    destruct (shuffle rnd (Mono st) (cur st)) as [shuf c]. simpl in Hp.
    pose proof (scan_all_closed Pooled P shuf (optGs st, corrs st, adds st)
                  Hstep) as H.
    destruct (scan_all _ _ _ _ _) as [[l c'] k]. simpl in *. apply H; [|done].
    rewrite Hp. by apply Mono_ok_Forall.
  - unfold altshufAdd_round.
    pose proof (shuffle_small_spec rnd n (Mono st) (cur st) HM) as HM1.
    destruct (shuffle_small rnd n (Mono st) (cur st)) as [M1 c1]. simpl in HM1.
    pose proof (shuffle_big_spec rnd n M1 c1 HM1) as HM2.
    destruct (shuffle_big rnd n M1 c1) as [M2 c2]. simpl in HM2.
    pose proof (Mono_ok_Forall M2 HM2) as HF.
    pose proof (scan_first_closed Alternating P (small n M2)
                  (optGs st, corrs st, adds st) Hstep) as H1.
    pose proof (scan_first_closed Alternating P (big n M2)
                  (scan_first pearsonr n (5 # 100) (small n M2)
                     (optGs st, corrs st, adds st)) Hstep) as H2.
    destruct (scan_first _ _ _ (big n M2) _) as [[l c'] k]. simpl in *.
    apply H2.
    + unfold big. by apply Forall_drop.
    + apply H1; [|done]. unfold small. by apply Forall_take.
Qed.

Lemma grow_loop_closed v P fuel st st' :
  step_closed pearsonr n v P → Mono_ok n (Mono st) →
  P (optGs st) (corrs st) →
  grow_loop leng (round_of pearsonr rnd v n) fuel st = Some st' →
  P (optGs st') (corrs st').
Proof.
  intros Hstep. revert st.
  induction fuel as [|fuel IH]; intros st HM HP; simpl;
    destruct (decide (length (optGs st) < leng)); try congruence;
    try (by intros [= <-]).
  pose proof (round_of_closed v P st Hstep HM HP) as HP'.
  pose proof (round_of_Mono_ok v st HM) as HM'.
  destruct (decide _); [by intros [= <-]|]. by apply IH.
Qed.

Lemma grower_of_closed v P seed c M k g :
  step_closed pearsonr n v P → Mono_ok n M → P seed c →
  grower_of pearsonr rnd v n leng seed c M k = Some g →
  P (optGs g) (corrs g).
Proof.
  intros Hstep HM HP. rewrite grower_of_unfold.
  by apply grow_loop_closed.
Qed.

End ClosureFacts.

(** ** From the attempts to the value returned *)

Section LiftFacts.

Variable pearsonr : list Q → list Q → Q.
Variable rnd : nat → nat.
Variable n : nat.
Variable leng : nat.

(** Whatever holds of the result of every attempt holds of the locals
    [optGs], [corrs] and of the best result when the restart loop ends. *)
Lemma restart_loop_lift (R : list Q → list Q → Prop) grower cap seed fuel st st' :
  (∀ M k g, Mono_ok n M →
     grower seed [pearsonr (phase n) seed] M k = Some g →
     R (optGs g) (corrs g) ∧ Mono_ok n (Mono g)) →
  Mono_ok n (c_Mono st) →
  (∀ c, c_corrs st = Some c → R (c_optGs st) c) →
  (∀ b bc, c_best st = Some (b, bc) → R b bc) →
  restart_loop pearsonr n leng grower cap seed fuel st = Some (Ok st') →
  ∀ c, c_corrs st' = Some c → R (c_optGs st') c.
Proof.
  intros Hgrow. revert st.
  induction fuel as [|fuel IH]; intros st HM Hc Hb; simpl;
    destruct (decide (length (c_optGs st) < leng)); try congruence;
    try (by intros [= <-]).
  destruct (grower _ _ _ _) as [g|] eqn:Hg; [|done].
  destruct (Hgrow _ _ _ HM Hg) as [HR HMg].
  rewrite track_best_spec.
  set (best := if decide (max_list (c_lenGs st) ≤ length (optGs g))
               then Some (optGs g, corrs g) else c_best st).
  assert (Hb' : ∀ b bc, best = Some (b, bc) → R b bc).
  { intros b bc. unfold best. destruct (decide _); [by intros [= <- <-]|].
    apply Hb. }
  destruct (decide (S (c_count st) = cap)).
  - destruct best as [[b bc]|] eqn:Eb; [|done].
    intros [= <-] c [= <-]. simpl. by apply Hb'.
  - apply IH; simpl; [done| |done]. by intros c [= <-].
Qed.

Lemma restart_lift (R : list Q → list Q → Prop) grower cap seed M k st' :
  (∀ M k g, Mono_ok n M →
     grower seed [pearsonr (phase n) seed] M k = Some g →
     R (optGs g) (corrs g) ∧ Mono_ok n (Mono g)) →
  Mono_ok n M →
  restart pearsonr n leng grower cap seed M k = Some (Ok st') →
  ∀ c, c_corrs st' = Some c → R (c_optGs st') c.
Proof.
  intros Hgrow HM. unfold restart.
  apply (restart_loop_lift R); simpl; done.
Qed.

(** The parts of a run that raises nothing. *)
Lemma generate_run_inv v fuel r :
  generate_run pearsonr rnd v n leng fuel = Some (Ok r) →
  seed_ok pearsonr n (r_seed r) ∧
  ∃ M k st,
    Mono_ok n M ∧
    restart pearsonr n leng (grower_of pearsonr rnd v n leng) (cap_of v)
      (r_seed r) M k = Some (Ok st) ∧
    r_final r = Ok st ∧ r_ret r = returned st.
Proof.
  destruct v; unfold generate_run.
  - unfold shufGen_run.
    destruct (seed_loop _ _ _ _ _ _) as [[seed c]|] eqn:Hs; [|done].
    apply seed_loop_ok in Hs;
      [|apply linspace_length|apply pool_NoDupA].
    destruct (restart _ _ _ _ _ _ _ _) as [final|] eqn:Hr;
      [|intros; discriminate].
    intros [= <-]. split; [exact Hs|].
    pose proof Hr as Hr'.
    apply (restart_ok pearsonr n leng (threshold Pooled)) in Hr'
      as (st & -> & _);
      [|apply (grower_of_grower_ok pearsonr n leng rnd Pooled),
          seed_good, Hs|apply pool_Mono_ok].
    exists (pool n), c, st. split; [apply pool_Mono_ok|]. split; [exact Hr|].
    split; reflexivity.
  - unfold altshufGen_run.
    destruct (altseed_loop _ _ _ _ _ _ _) as [[[[seed M] c]|]|] eqn:Hs;
      [|intros; discriminate..].
    apply altseed_loop_ok in Hs as [Hs HM];
      [|apply linspace_length|apply start0_NoDupA|apply pool_Mono_ok].
    destruct (restart _ _ _ _ _ _ _ _) as [final|] eqn:Hr;
      [|intros; discriminate].
    intros [= <-]. split; [exact Hs|].
    pose proof Hr as Hr'.
    apply (restart_ok pearsonr n leng (threshold Alternating)) in Hr'
      as (st & -> & _);
      [|apply (grower_of_grower_ok pearsonr n leng rnd Alternating),
          seed_good, Hs|exact HM].
    exists M, c, st. split; [exact HM|]. split; [exact Hr|].
    split; reflexivity.
Qed.

(** Whatever holds of the result of every attempt grown from the seed
    holds of the value returned. *)
Lemma generate_lift v (R : list Q → list Q → Prop) fuel r seq tr :
  generate_run pearsonr rnd v n leng fuel = Some (Ok r) →
  r_ret r = Ok (seq, tr) →
  (∀ M k g, Mono_ok n M →
     grower_of pearsonr rnd v n leng (r_seed r)
       [pearsonr (phase n) (r_seed r)] M k = Some g →
     R (optGs g) (corrs g)) →
  R seq tr.
Proof.
  intros Hrun Hret HR.
  destruct (generate_run_inv v fuel r Hrun)
    as (Hs & M & k & st & HM & Hr & _ & Hrs).
  rewrite Hrs in Hret. unfold returned in Hret.
  destruct (c_corrs st) as [c|] eqn:Ec; [|discriminate].
  injection Hret as <- <-.
  eapply (restart_lift R); [|exact HM|exact Hr|exact Ec].
  intros M' k' g HM' Hg. split; [by eapply HR|].
  eapply grower_of_ok in Hg as [_ HMg]; [done| |done].
  by apply seed_good.
Qed.

(** A property kept by every accepted append, and true of the seed
    with its coefficient, is true of the value returned. *)
Lemma generate_closed v (P : list Q → list Q → Prop) fuel r seq tr :
  generate_run pearsonr rnd v n leng fuel = Some (Ok r) →
  r_ret r = Ok (seq, tr) →
  step_closed pearsonr n v P →
  P (r_seed r) [pearsonr (phase n) (r_seed r)] →
  P seq tr.
Proof.
  intros Hrun Hret Hstep Hseed.
  apply (generate_lift v P fuel r seq tr Hrun Hret).
  intros M k g HM Hg. by eapply grower_of_closed.
Qed.

Lemma generate_ret v fuel seq tr :
  generate pearsonr rnd v n leng fuel = Some (Ok (seq, tr)) →
  ∃ r, generate_run pearsonr rnd v n leng fuel = Some (Ok r) ∧
       r_ret r = Ok (seq, tr).
Proof.
  unfold generate, ret_of.
  destruct (generate_run _ _ _ _ _ _) as [[r|]|]; [|discriminate..].
  intros [= H]. eauto.
Qed.

End LiftFacts.

(** ** The seed and the pool *)

Section SeedShape.

Variable pearsonr : list Q → list Q → Q.
Variable rnd : nat → nat.
Variable n : nat.

Lemma last_k_all k (l : list Q) : length l = k → last_k k l = l.
Proof.
  intros <-. destruct l as [|x l]; [done|].
  unfold last_k. cbn [length]. by rewrite Nat.sub_diag.
Qed.

Lemma seed_loop_perm fuel start c seed c' :
  seed_loop pearsonr rnd n fuel start c = Some (seed, c') → seed ≡ₚ start.
Proof.
  revert start c. induction fuel as [|fuel IH]; intros start c; simpl;
    destruct (Qgtb _ _); try congruence; try (by intros [= <- <-]).
  pose proof (shuffle_perm rnd start c) as Hp.
  destruct (shuffle rnd start c) as [start' c1]. simpl in Hp.
  intros H%IH. by rewrite H.
Qed.

Lemma alt_pos_cons (A B : Q → Prop) x l :
  A x → alt_pos B A l → alt_pos A B (x :: l).
Proof.
  intros HA Hl i y Hy. destruct i as [|i].
  - simpl in Hy. by injection Hy as <-.
  - change (l !! i = Some y) in Hy. specialize (Hl i y Hy).
    rewrite Nat.even_succ, <- Nat.negb_even. by destruct (Nat.even i).
Qed.

Lemma stride_put_alt_pos (A B : Q → Prop) (l : list Q) :
  (∀ s b, length s = stride_slots 0 l → length b = stride_slots 1 l →
     Forall A s → Forall B b →
     alt_pos A B (stride_put 1 (stride_put 0 l s) b)) ∧
  (∀ s b, length s = stride_slots 1 l → length b = stride_slots 0 l →
     Forall A s → Forall B b →
     alt_pos B A (stride_put 0 (stride_put 1 l s) b)).
Proof.
  induction l as [|x r [IH1 IH2]]; split; intros s b Hs Hb HA HB;
    simpl in *.
  - intros i y. by rewrite lookup_nil.
  - intros i y. by rewrite lookup_nil.
  - destruct s as [|s0 s]; simplify_eq/=.
    apply Forall_cons in HA as [HA0 HA].
    apply alt_pos_cons; [done|]. by apply IH2.
  - destruct b as [|b0 b]; simplify_eq/=.
    apply Forall_cons in HB as [HB0 HB].
    apply alt_pos_cons; [done|]. by apply IH1.
Qed.

(** A pass of the alternating seed loop that raises nothing has put the
    low half of [Mono] at the even places of [start] and the high half
    at the odd places. *)
Lemma altseed_pass_shape start M1 M2 start1 start2 :
  length start = n → Mono_ok n M1 → Mono_ok n M2 →
  stride_assign 0 start (small n M1) = Ok start1 →
  stride_assign 1 start1 (big n M2) = Ok start2 →
  start2 = stride_put 1 (stride_put 0 start (small n M1)) (big n M2) ∧
  length (small n M1) = stride_slots 0 start ∧
  length (big n M2) = stride_slots 1 start.
Proof.
  intros Hlen HM1 HM2 H1 H2.
  pose proof (Mono_ok_length n M1 HM1) as HlM1.
  pose proof (Mono_ok_length n M2 HM2) as HlM2.
  pose proof (stride_slots_sum start) as Hsl.
  pose proof (half_bounds n) as Hhalf.
  assert (Hls : length (small n M1) = n / 2).
  { unfold small. rewrite length_take. lia. }
  assert (Hlb : length (big n M2) = n - n / 2).
  { unfold big. rewrite length_drop. lia. }
  pose proof (stride_assign_length _ _ _ _ H1) as Hl1.
  pose proof (stride_slots_sum start1) as Hsl1.
  unfold stride_assign in H1, H2.
  destruct (decide (length (small n M1) = stride_slots 0 start)) as [E1|N1];
    destruct (decide (length (big n M2) = stride_slots 1 start1)) as [E2|N2].
  - injection H1 as <-. injection H2 as <-.
    split; [done|]. split; [done|]. lia.
  - destruct (big n M2) as [|? [|]] eqn:?; try discriminate.
    cbn [length] in *. lia.
  - destruct (small n M1) as [|? [|]] eqn:?; try discriminate.
    cbn [length] in *. lia.
  - destruct (small n M1) as [|? [|]] eqn:?; try discriminate.
    destruct (big n M2) as [|? [|]] eqn:?; try discriminate.
    cbn [length] in *. lia.
Qed.

Lemma Forall_elem_of_self (l : list Q) : Forall (λ x, x ∈ l) l.
Proof. by apply Forall_forall. Qed.

Lemma altseed_loop_shape fuel start M c seed M' c' :
  length start = n → Mono_ok n M →
  altseed_loop pearsonr rnd n fuel start M c = Some (Ok (seed, M', c')) →
  seed = start ∨
  (seed ≡ₚ pool n ∧
   alt_pos (λ x, x ∈ small n (pool n)) (λ x, x ∈ big n (pool n)) seed).
Proof.
  revert start M c.
  induction fuel as [|fuel IH]; intros start M c Hlen HM; simpl;
    destruct (Qgtb _ _) eqn:Hgt; try congruence;
    try (intros [= <- <- <-]; by left).
  pose proof (shuffle_small_spec rnd n M c HM) as HM1.
  destruct (shuffle_small rnd n M c) as [M1 c1]. simpl in HM1.
  destruct (stride_assign 0 start (small n M1)) as [start1|] eqn:H1; [|done].
  pose proof (shuffle_big_spec rnd n M1 c1 HM1) as HM2.
  destruct (shuffle_big rnd n M1 c1) as [M2 c2] eqn:Hsh. simpl in HM2.
  destruct (stride_assign 1 start1 (big n M2)) as [start2|] eqn:H2; [|done].
  pose proof (altseed_pass rnd n start M1 M2 c1 c2 start1 start2
                Hlen HM1 H1 Hsh H2) as Hp.
  destruct (altseed_pass_shape start M1 M2 start1 start2 Hlen HM1 HM2 H1 H2)
    as (E & Es & Eb).
  assert (HG : start2 ≡ₚ pool n ∧
    alt_pos (λ x, x ∈ small n (pool n)) (λ x, x ∈ big n (pool n)) start2).
  { split; [by rewrite Hp; apply Mono_ok_perm|].
    assert (Ha : alt_pos (λ x, x ∈ small n M1) (λ x, x ∈ big n M2) start2).
    { rewrite E. apply (proj1 (stride_put_alt_pos _ _ start));
        auto using Forall_elem_of_self. }
    intros i x Hx. specialize (Ha i x Hx).
    destruct HM1 as [Hs1 _]. destruct HM2 as [_ Hb2].
    destruct (Nat.even i); [by rewrite <- Hs1|by rewrite <- Hb2]. }
  intros Hrun. apply IH in Hrun as [->|HG']; [by right|by right| |done].
  rewrite Hp. by apply Mono_ok_length.
Qed.

End SeedShape.

Section RunSeed.

Variable pearsonr : list Q → list Q → Q.
Variable rnd : nat → nat.
Variable n : nat.
Variable leng : nat.

Lemma run_seed_pooled fuel r :
  shufGen_run pearsonr rnd n leng fuel = Some (Ok r) → r_seed r ≡ₚ pool n.
Proof.
  unfold shufGen_run.
  destruct (seed_loop _ _ _ _ _ _) as [[seed c]|] eqn:Hs; [|done].
  apply seed_loop_perm in Hs.
  destruct (restart _ _ _ _ _ _ _ _) as [final|]; [|intros; discriminate].
  by intros [= <-].
Qed.

Lemma run_seed_alternating fuel r :
  altshufGen_run pearsonr rnd n leng fuel = Some (Ok r) →
  r_seed r = linspace 0 (inject_Z (Z.of_nat n)) n ∨
  (r_seed r ≡ₚ pool n ∧
   alt_pos (λ x, x ∈ small n (pool n)) (λ x, x ∈ big n (pool n)) (r_seed r)).
Proof.
  unfold altshufGen_run.
  destruct (altseed_loop _ _ _ _ _ _ _) as [[[[seed M] c]|]|] eqn:Hs;
    [|intros; discriminate..].
  apply altseed_loop_shape in Hs;
    [|apply linspace_length|apply pool_Mono_ok].
  destruct (restart _ _ _ _ _ _ _ _) as [final|]; [|intros; discriminate].
  by intros [= <-].
Qed.

End RunSeed.

(** X1.  Entry [k] of a returned trace is the coefficient of the [n]
    elements of the sequence that start at index [k]
    ([sequence[k : k+n]]). *)
Theorem X1_trace_windows pearsonr rnd v n leng fuel seq tr k :
  generate pearsonr rnd v n leng fuel = Some (Ok (seq, tr)) →
  k < length tr →
  tr !! k = Some (pearsonr (phase n) (take n (drop k seq))).
Proof.
  intros Hgen Hk.
  destruct (generate_ret _ _ _ _ _ _ _ _ Hgen) as (r & Hrun & Hret).
  destruct (generate_run_inv _ _ _ _ _ _ _ Hrun) as ((Hlen & _) & _).
  set (P := λ l c : list Q,
    length l + 1 = n + length c ∧ (n = 0 → l = []) ∧
    ∀ k, k < length c →
      c !! k = Some (pearsonr (phase n) (last_k n (take (n + k) l)))).
  assert (HP : P seq tr).
  { apply (generate_closed pearsonr rnd n leng v P fuel r seq tr Hrun Hret).
    - intros g l c Hg _ _ (Hl & H0 & Hc). split; [|split].
      + rewrite !length_app. simpl. lia.
      + intros ->. by apply elem_of_nil in Hg.
      + intros j Hj. rewrite length_app in Hj. simpl in Hj.
        destruct (decide (j < length c)) as [Hlt|Hge].
        * rewrite lookup_app_l by done. rewrite take_app_le by lia.
          by apply Hc.
        * assert (j = length c) as -> by lia.
          rewrite list_lookup_middle by done.
          rewrite take_ge by (rewrite length_app; simpl; lia). done.
    - split; [simpl; lia|]. split.
      + intros ->. by apply nil_length_inv.
      + intros [|j] Hj; [|simpl in Hj; lia]. simpl.
        rewrite Nat.add_0_r, take_ge by lia. by rewrite last_k_all. }
  destruct HP as (Hl & H0 & Hc). rewrite (Hc k Hk). do 2 f_equal.
  destruct n as [|m].
  - rewrite (H0 eq_refl). by rewrite drop_nil, take_nil.
  - unfold last_k. rewrite length_take, take_drop_commute.
    replace ((S m + k) `min` length seq) with (S m + k) by lia.
    replace (S m + k - S m) with k by lia.
    by replace (k + S m) with (S m + k) by lia.
Qed.

(** X2.  Every element a generator appended to the seed is a value of
    the pool. *)
Theorem X2_appended_from_pool pearsonr rnd v n leng fuel seq tr :
  generate pearsonr rnd v n leng fuel = Some (Ok (seq, tr)) →
  Forall (λ x, x ∈ pool n) (drop n seq).
Proof.
  intros Hgen.
  destruct (generate_ret _ _ _ _ _ _ _ _ Hgen) as (r & Hrun & Hret).
  destruct (generate_run_inv _ _ _ _ _ _ _ Hrun) as ((Hlen & _) & _).
  set (P := λ l c : list Q,
    ∃ k, l = r_seed r ++ k ∧ Forall (λ x, x ∈ pool n) k).
  assert (HP : P seq tr).
  { apply (generate_closed pearsonr rnd n leng v P fuel r seq tr Hrun Hret).
    - intros g l c Hg _ _ (k & -> & Hk). exists (k ++ [g]).
      split; [symmetry; apply app_assoc|]. apply Forall_app. auto.
    - exists []. by rewrite app_nil_r. }
  destruct HP as (k & -> & Hk).
  replace (drop n (r_seed r ++ k)) with k; [done|].
  by rewrite <- Hlen, drop_app_length.
Qed.

(** X3.  The seed of the pooled variant is a permutation of the pool,
    and every element of the sequence it returns is a value of the
    pool. *)
Theorem X3_pooled_values pearsonr rnd n leng fuel r seq tr :
  shufGen_run pearsonr rnd n leng fuel = Some (Ok r) →
  r_ret r = Ok (seq, tr) →
  r_seed r ≡ₚ pool n ∧ Forall (λ x, x ∈ pool n) seq.
Proof.
  intros Hrun Hret.
  pose proof (run_seed_pooled pearsonr rnd n leng fuel r Hrun) as Hseed.
  split; [done|].
  apply (generate_closed pearsonr rnd n leng Pooled
           (λ l c, Forall (λ x, x ∈ pool n) l) fuel r seq tr Hrun Hret).
  - intros g l c Hg _ _ Hl. apply Forall_app. auto.
  - apply Forall_forall. intros x Hx. by rewrite <- Hseed.
Qed.

(** X4.  When the seed loop of the alternating variant is entered, the
    seed it ends with is a permutation of the pool that holds values of
    the low half at its even places and values of the high half at its
    odd places. *)
Theorem X4_alternating_seed pearsonr rnd n leng fuel r :
  altshufGen_run pearsonr rnd n leng fuel = Some (Ok r) →
  (1 # 100 <
   Qabs (pearsonr (phase n) (linspace 0 (inject_Z (Z.of_nat n)) n)))%Q →
  r_seed r ≡ₚ pool n ∧
  alt_pos (λ x, x ∈ small n (pool n)) (λ x, x ∈ big n (pool n)) (r_seed r).
Proof.
  intros Hrun Hgt.
  destruct (run_seed_alternating pearsonr rnd n leng fuel r Hrun) as [E|H];
    [|done].
  destruct (generate_run_inv pearsonr rnd n leng Alternating fuel r Hrun)
    as ((_ & _ & Hle) & _).
  rewrite E in Hle. exfalso. by apply (Qlt_not_le _ _ Hgt).
Qed.

(** ** How far a round and an attempt can go *)

Section GainFacts.

Variable pearsonr : list Q → list Q → Q.
Variable rnd : nat → nat.
Variable n : nat.
Variable leng : nat.

Lemma try_add_adds thr g a :
  (try_add pearsonr n thr g a).1.2 =
    if (try_add pearsonr n thr g a).2 then S a.2 else a.2.
Proof.
  destruct a as [[l c] k].
  by destruct (try_add_cases pearsonr n thr g l c k) as [->|(_ & _ & ->)].
Qed.

Lemma scan_all_adds thr shuf a :
  a.2 ≤ (scan_all pearsonr n thr shuf a).2 ≤ a.2 + length shuf.
Proof.
  revert a. unfold scan_all. induction shuf as [|g shuf IH]; intros a; simpl;
    [lia|].
  pose proof (try_add_adds thr g a) as H.
  specialize (IH (try_add pearsonr n thr g a).1).
  destruct (try_add pearsonr n thr g a).2; lia.
Qed.

Lemma scan_first_adds thr shuf a :
  a.2 ≤ (scan_first pearsonr n thr shuf a).2 ≤ a.2 + 1.
Proof.
  revert a. induction shuf as [|g shuf IH]; intros a; simpl; [lia|].
  pose proof (try_add_adds thr g a) as H.
  destruct (try_add pearsonr n thr g a) as [a' [|]]; simpl in *; [lia|].
  specialize (IH a'). lia.
Qed.

Lemma round_of_adds v st :
  Mono_ok n (Mono st) →
  adds st ≤ adds (round_of pearsonr rnd v n st) ≤ adds st + round_gain v n.
Proof.
  intros HM. destruct v; simpl.
  - unfold shufAdd_round.
    pose proof (shuffle_length rnd (Mono st) (cur st)) as Hl.
    destruct (shuffle rnd (Mono st) (cur st)) as [shuf c]. simpl in Hl.
    pose proof (scan_all_adds (1 # 10) shuf (optGs st, corrs st, adds st)) as H.
    destruct (scan_all _ _ _ _ _) as [[l c'] k]. simpl in *.
    rewrite Hl, (Mono_ok_length n) in H by done. done.
  - unfold altshufAdd_round.
    destruct (shuffle_small rnd n (Mono st) (cur st)) as [M1 c1].
    destruct (shuffle_big rnd n M1 c1) as [M2 c2].
    pose proof (scan_first_adds (5 # 100) (small n M2)
                  (optGs st, corrs st, adds st)) as H1.
    pose proof (scan_first_adds (5 # 100) (big n M2)
                  (scan_first pearsonr n (5 # 100) (small n M2)
                     (optGs st, corrs st, adds st))) as H2.
    destruct (scan_first _ _ _ (big n M2) _) as [[l c'] k]. simpl in *. lia.
Qed.

Lemma grow_loop_length_bound v fuel st st' :
  Mono_ok n (Mono st) →
  grow_loop leng (round_of pearsonr rnd v n) fuel st = Some st' →
  (st' = st ∧ ¬ length (optGs st) < leng) ∨
  length (optGs st') < leng + round_gain v n.
Proof.
  revert st. induction fuel as [|fuel IH]; intros st HM; simpl;
    destruct (decide (length (optGs st) < leng)) as [Hlt|Hge];
    try congruence; try (intros [= <-]; by left).
  pose proof (round_of_adds v st HM) as Ha.
  pose proof (round_of_length pearsonr rnd n v st) as Hl.
  pose proof (round_of_Mono_ok pearsonr rnd n v st HM) as HM'.
  destruct (decide _).
  - intros [= <-]. right. lia.
  - intros [[-> _]|H]%IH; [right; lia|by right|done].
Qed.

(** The growth loop keeps [len(optGs) = len(seed) + adds] and
    [count <= adds] at its head. *)
Lemma grow_loop_rounds v fuel st st' L0 :
  Mono_ok n (Mono st) →
  length (optGs st) = L0 + adds st → count st ≤ adds st →
  grow_loop leng (round_of pearsonr rnd v n) fuel st = Some st' →
  length (optGs st') = L0 + adds st' ∧
  count st' ≤ adds st' + 1 ∧
  (length (optGs st') < leng → count st' = adds st' + 1) ∧
  count st' ≤ count st `max` (leng - L0).
Proof.
  revert st. induction fuel as [|fuel IH]; intros st HM HL Hc; simpl;
    destruct (decide (length (optGs st) < leng)) as [Hlt|Hge];
    try congruence; try (intros [= <-]; repeat split; lia).
  pose proof (round_of_adds v st HM) as Ha.
  pose proof (round_of_length pearsonr rnd n v st) as Hl.
  pose proof (round_of_count pearsonr rnd n v st) as Hcnt.
  pose proof (round_of_Mono_ok pearsonr rnd n v st HM) as HM'.
  destruct (decide _).
  - intros [= <-]. repeat split; lia.
  - intros H. apply IH in H as (H1 & H2 & H3 & H4); [|done|lia..].
    repeat split; [done..|lia].
Qed.

Lemma restart_entered grower cap seed M k st' c :
  restart pearsonr n leng grower cap seed M k = Some (Ok st') →
  c_corrs st' = Some c → length seed < leng.
Proof.
  unfold restart. generalize cap at 2. intros fuel.
  destruct fuel as [|fuel]; simpl;
    (destruct (decide (length seed < leng)); [done|]);
    by intros [= <-].
Qed.

End GainFacts.

(** X5.  A returned sequence holds at least the [n] elements of the
    seed and ends less than one round's worth of elements past the
    target: fewer than [leng + n] elements in the pooled variant, at
    most [leng + 1] in the alternating one. *)
Theorem X5_length_bounds pearsonr rnd v n leng fuel seq tr :
  generate pearsonr rnd v n leng fuel = Some (Ok (seq, tr)) →
  n ≤ length seq < leng + round_gain v n.
Proof.
  intros Hgen.
  destruct (generate_ret _ _ _ _ _ _ _ _ Hgen) as (r & Hrun & Hret).
  destruct (generate_run_inv _ _ _ _ _ _ _ Hrun)
    as ((Hlen & _) & M & k & st & HM & Hr & _ & Hrs).
  assert (Hlt : n < leng).
  { rewrite Hrs in Hret. unfold returned in Hret.
    destruct (c_corrs st) as [c|] eqn:Ec; [|discriminate].
    rewrite <- Hlen. by eapply restart_entered. }
  split.
  - destruct (run_ret_good _ _ _ _ _ _ _ _ _ Hrun Hret) as (_ & Hpre & _).
    apply prefix_length in Hpre. lia.
  - assert (H : (length seq = n ∧ ¬ n < leng) ∨
                length seq < leng + round_gain v n); [|lia].
    apply (generate_lift pearsonr rnd n leng v
             (λ l c, (length l = n ∧ ¬ n < leng) ∨
                     length l < leng + round_gain v n)
             fuel r seq tr Hrun Hret).
    intros M' k' g HM' Hg. rewrite grower_of_unfold in Hg.
    apply grow_loop_length_bound in Hg as [[-> Hn]|H]; [|by right|done].
    left. simpl in *. lia.
Qed.

(** ** Counting the attempts *)

Section AttemptFacts.

Variable pearsonr : list Q → list Q → Q.
Variable n : nat.
Variable leng : nat.

Lemma max_list_le ms x : Forall (λ m, m ≤ x) ms → max_list ms ≤ x.
Proof. induction 1; simpl; lia. Qed.

Lemma restart_loop_attempts grower cap seed fuel st st' :
  c_count st = length (c_lenGs st) → best_ok st →
  (∀ c, c_corrs st = Some c →
     ∃ prev, c_lenGs st = prev ++ [length (c_optGs st)] ∧
             Forall (λ m, m < leng) prev) →
  (c_corrs st = None → c_lenGs st = []) →
  restart_loop pearsonr n leng grower cap seed fuel st = Some (Ok st') →
  c_count st' = length (c_lenGs st') ∧
  c_count st' ≤ c_count st + fuel ∧
  ∀ c, c_corrs st' = Some c →
    length (c_optGs st') = max_list (c_lenGs st') ∧
    1 ≤ c_count st' ∧
    (length (c_optGs st') < leng → c_count st' = cap).
Proof.
  assert (Hexit : ∀ st, c_count st = length (c_lenGs st) →
    (∀ c, c_corrs st = Some c →
       ∃ prev, c_lenGs st = prev ++ [length (c_optGs st)] ∧
               Forall (λ m, m < leng) prev) →
    ¬ length (c_optGs st) < leng →
    ∀ c, c_corrs st = Some c →
      length (c_optGs st) = max_list (c_lenGs st) ∧
      1 ≤ c_count st ∧
      (length (c_optGs st) < leng → c_count st = cap)).
  { intros st0 Hcnt Hlast Hge c Ec.
    destruct (Hlast c Ec) as (prev & E & Hprev).
    rewrite Hcnt, E, max_list_snoc, length_app. simpl.
    assert (max_list prev ≤ length (c_optGs st0)).
    { apply max_list_le. eapply Forall_impl; [exact Hprev|]. simpl. lia. }
    lia. }
  revert st.
  induction fuel as [|fuel IH]; intros st Hcnt Hb Hlast Hnone; simpl;
    destruct (decide (length (c_optGs st) < leng)) as [Hlt|Hge];
    try congruence;
    try (intros [= <-]; split; [done|]; split; [lia|]; by apply Hexit).
  destruct (grower _ _ _ _) as [g|]; [|done].
  rewrite track_best_spec.
  set (best := if decide (max_list (c_lenGs st) ≤ length (optGs g))
               then Some (optGs g, corrs g) else c_best st).
  assert (HA : Forall (λ m, m < leng) (c_lenGs st)).
  { destruct (c_corrs st) as [c|] eqn:Ec.
    - destruct (Hlast c eq_refl) as (prev & -> & Hprev).
      apply Forall_app. split; [done|]. by repeat constructor.
    - rewrite Hnone by done. constructor. }
  assert (HB : ∃ b bc, best = Some (b, bc) ∧
                 length b = max_list (c_lenGs st ++ [length (optGs g)])).
  { rewrite max_list_snoc. unfold best, best_ok in *.
    destruct (decide _) as [Hle|Hgt]; [eexists _, _; split; [done|lia]|].
    destruct (c_best st) as [[b bc]|]; [eexists _, _; split; [done|lia]|].
    rewrite Hb in Hgt. simpl in Hgt. lia. }
  destruct HB as (b & bc & Eb & Hlb). clearbody best. subst best.
  destruct (decide (S (c_count st) = cap)) as [Hcap|Hcap].
  - intros [= <-]. simpl. rewrite length_app. simpl.
    split; [lia|]. split; [lia|]. intros c _. split; [done|]. lia.
  - intros H. apply IH in H as (H1 & H2 & H3); simpl.
    + split; [done|]. split; [simpl in H2; lia|done].
    + rewrite length_app. simpl. lia.
    + unfold best_ok. by simpl.
    + intros c _. by exists (c_lenGs st).
    + done.
Qed.

Lemma restart_attempts grower cap seed M k st' c :
  restart pearsonr n leng grower cap seed M k = Some (Ok st') →
  c_corrs st' = Some c →
  c_count st' = length (c_lenGs st') ∧
  1 ≤ c_count st' ≤ cap ∧
  length (c_optGs st') = max_list (c_lenGs st') ∧
  (length (c_optGs st') < leng → c_count st' = cap).
Proof.
  unfold restart. intros Hr Ec.
  apply restart_loop_attempts in Hr as (H1 & H2 & H3); simpl in *;
    [|done..].
  destruct (H3 c Ec) as (H4 & H5 & H6). repeat split; try done; lia.
Qed.

End AttemptFacts.

(** X6.  When a generator returns, it has made between one and [cap]
    attempts (1000 pooled, 10 alternating); the sequence it returns is
    as long as the longest attempt, and it is shorter than the target
    only when all [cap] attempts were made. *)
Theorem X6_attempts pearsonr rnd v n leng fuel r st seq tr :
  generate_run pearsonr rnd v n leng fuel = Some (Ok r) →
  r_final r = Ok st →
  r_ret r = Ok (seq, tr) →
  c_count st = length (c_lenGs st) ∧
  1 ≤ c_count st ≤ cap_of v ∧
  length seq = max_list (c_lenGs st) ∧
  (length seq < leng → c_count st = cap_of v).
Proof.
  intros Hrun Hfin Hret.
  destruct (generate_run_inv _ _ _ _ _ _ _ Hrun)
    as (_ & M & k & st0 & _ & Hr & Hfin0 & Hrs).
  rewrite Hfin in Hfin0. injection Hfin0 as <-.
  rewrite Hrs in Hret. unfold returned in Hret.
  destruct (c_corrs st) as [c|] eqn:Ec; [|discriminate].
  injection Hret as <- <-.
  by eapply restart_attempts.
Qed.

(** X7.  The growth loop and the restart loop always end: a call fails
    to end exactly when its seed search does. *)
Theorem X7_only_seed_search_diverges pearsonr rnd v n leng fuel :
  generate pearsonr rnd v n leng fuel = None ↔
  match v with
  | Pooled => seed_loop pearsonr rnd n fuel (pool n) 0 = None
  | Alternating =>
      altseed_loop pearsonr rnd n fuel
        (linspace 0 (inject_Z (Z.of_nat n)) n) (pool n) 0 = None
  end.
Proof.
  pose proof (generate_run_total pearsonr rnd n leng v fuel) as Htot.
  unfold generate. split.
  - intros Hnone.
    assert (Hrun : generate_run pearsonr rnd v n leng fuel = None).
    { destruct (generate_run _ _ _ _ _ _) as [[?|?]|]; done. }
    rewrite Hrun in Htot. destruct v.
    + destruct (seed_loop _ _ _ _ _ _); [|done].
      destruct Htot as [? ?]; [eauto|done].
    + destruct (altseed_loop _ _ _ _ _ _ _); [|done].
      destruct Htot as [? ?]; [eauto|done].
  - destruct v; unfold generate_run.
    + unfold shufGen_run. fold (pool n). by intros ->.
    + unfold altshufGen_run. fold (pool n). by intros ->.
Qed.

(** X8.  An attempt grown from a seed returns a list of
    [len(seed) + adds] elements after at most [adds + 1] rounds, and at
    most [leng - len(seed)] rounds; when the list is short of the target
    the attempt stalled and ran exactly [adds + 1] rounds. *)
Theorem X8_attempt_rounds pearsonr rnd v n leng seed c M k g :
  Mono_ok n M →
  grower_of pearsonr rnd v n leng seed c M k = Some g →
  length (optGs g) = length seed + adds g ∧
  count g ≤ adds g + 1 ∧
  count g ≤ leng - length seed ∧
  (length (optGs g) < leng → count g = adds g + 1).
Proof.
  intros HM Hg. rewrite grower_of_unfold in Hg.
  apply (grow_loop_rounds pearsonr rnd n leng v _ _ _ (length seed)) in Hg
    as (H1 & H2 & H3 & H4); simpl in *; [|done|lia|lia].
  repeat split; first [done | lia].
Qed.

(** ** A seed search without an exit, and a sequence that cannot grow *)

Lemma seed_loop_none pearsonr rnd n fuel start c :
  (∀ l, l ≡ₚ start → (1 # 100 < Qabs (pearsonr (phase n) l))%Q) →
  seed_loop pearsonr rnd n fuel start c = None.
Proof.
  revert start c. induction fuel as [|fuel IH]; intros start c Hall; simpl.
  - unfold Qgtb. by rewrite (proj2 (Qltb_true _ _) (Hall start (reflexivity _))).
  - unfold Qgtb. rewrite (proj2 (Qltb_true _ _) (Hall start (reflexivity _))).
    pose proof (shuffle_perm rnd start c) as Hp.
    destruct (shuffle rnd start c) as [start' c1]. simpl in Hp.
    apply IH. intros l Hl. apply Hall. by rewrite Hl.
Qed.

(** X9.  The seed loop of the pooled variant has no other exit than a
    low coefficient: when every order of the pool correlates with the
    reference index above 0.01 in absolute value, the call never
    returns. *)
Theorem X9_seed_search_unbounded pearsonr rnd n leng :
  (∀ l, l ≡ₚ pool n → (1 # 100 < Qabs (pearsonr (phase n) l))%Q) →
  ∀ fuel, shufGen pearsonr rnd n leng fuel = None.
Proof.
  intros Hall fuel. unfold shufGen, shufGen_run. fold (pool n).
  by rewrite seed_loop_none.
Qed.


(** ** The further properties on concrete tapes *)

Lemma X1_witness :
  ∃ seq tr,
    generate pearson_q (tapeS 3) Alternating 8 10 10 = Some (Ok (seq, tr)) ∧
    2 < length tr ∧
    tr !! 2 = Some (pearson_q (phase 8) (take 8 (drop 2 seq))).
Proof.
  eexists _, _.
  split; [vm_compute; reflexivity|].
  split; [simpl; lia|].
  eapply (X1_trace_windows pearson_q (tapeS 3) Alternating 8 10 10).
  - vm_compute; reflexivity.
  - simpl. lia.
Defined.

Lemma X2_witness :
  ∃ seq tr,
    generate pearson_q (tapeS 3) Alternating 8 10 10 = Some (Ok (seq, tr)) ∧
    drop 8 seq = sevenths [395; 125]%Z ∧
    Forall (λ x, x ∈ pool 8) (drop 8 seq).
Proof.
  eexists _, _.
  split; [vm_compute; reflexivity|].
  split; [vm_compute; reflexivity|].
  eapply (X2_appended_from_pool pearson_q (tapeS 3) Alternating 8 10 10).
  vm_compute; reflexivity.
Defined.

Lemma X3_witness :
  ∃ r seq tr,
    shufGen_run pearson_q (tapeS 119) 8 10 10 = Some (Ok r) ∧
    r_ret r = Ok (seq, tr) ∧
    r_seed r ≡ₚ pool 8 ∧ Forall (λ x, x ∈ pool 8) seq.
Proof.
  eexists _, _, _.
  split; [vm_compute; reflexivity|].
  split; [reflexivity|].
  eapply (X3_pooled_values pearson_q (tapeS 119) 8 10 10).
  - vm_compute; reflexivity.
  - reflexivity.
Defined.

Lemma X4_witness :
  ∃ r,
    altshufGen_run pearson_q (tapeS 3) 8 10 10 = Some (Ok r) ∧
    (1 # 100 <
     Qabs (pearson_q (phase 8) (linspace 0 (inject_Z (Z.of_nat 8)) 8)))%Q ∧
    r_seed r = sevenths [305; 575; 125; 395; 215; 665; 35; 485]%Z ∧
    r_seed r ≡ₚ pool 8 ∧
    alt_pos (λ x, x ∈ small 8 (pool 8)) (λ x, x ∈ big 8 (pool 8)) (r_seed r).
Proof.
  eexists.
  split; [vm_compute; reflexivity|].
  split; [vm_compute; reflexivity|].
  split; [vm_compute; reflexivity|].
  eapply (X4_alternating_seed pearson_q (tapeS 3) 8 10 10).
  - vm_compute; reflexivity.
  - vm_compute; reflexivity.
Defined.

(** A pooled run whose first round takes the list from 8 to 11
    elements, past the target 9. *)
Lemma X5_witness :
  ∃ seq tr,
    generate pearson_q (tapeS 24) Pooled 8 9 10 = Some (Ok (seq, tr)) ∧
    length seq = 11 ∧
    8 ≤ length seq < 9 + round_gain Pooled 8.
Proof.
  eexists _, _.
  split; [vm_compute; reflexivity|].
  split; [reflexivity|].
  eapply (X5_length_bounds pearson_q (tapeS 24) Pooled 8 9 10).
  vm_compute; reflexivity.
Defined.

(** An alternating run that gives up: ten attempts, none past the
    seed. *)
Lemma X6_witness :
  ∃ r st seq tr,
    generate_run pearson_q tape0 Alternating 4 12 10 = Some (Ok r) ∧
    r_final r = Ok st ∧
    r_ret r = Ok (seq, tr) ∧
    c_lenGs st = replicate 10 4 ∧
    c_count st = length (c_lenGs st) ∧
    1 ≤ c_count st ≤ cap_of Alternating ∧
    length seq = max_list (c_lenGs st) ∧
    (length seq < 12 → c_count st = cap_of Alternating).
Proof.
  eexists _, _, _, _.
  split; [vm_compute; reflexivity|].
  split; [reflexivity|].
  split; [reflexivity|].
  split; [reflexivity|].
  eapply (X6_attempts pearson_q tape0 Alternating 4 12 10).
  - vm_compute; reflexivity.
  - reflexivity.
  - reflexivity.
Defined.

(** The first attempt of a pooled run: two elements accepted, three
    rounds. *)
Lemma X8_witness :
  ∃ seed c g,
    seed_loop pearson_q (tapeS 119) 8 10 (pool 8) 0 = Some (seed, c) ∧
    Mono_ok 8 (pool 8) ∧
    grower_of pearson_q (tapeS 119) Pooled 8 20 seed
      [pearson_q (phase 8) seed] (pool 8) c = Some g ∧
    (count g, adds g) = (3, 2) ∧
    length (optGs g) = length seed + adds g ∧
    count g ≤ adds g + 1 ∧
    count g ≤ 20 - length seed ∧
    (length (optGs g) < 20 → count g = adds g + 1).
Proof.
  eexists _, _, _.
  split; [vm_compute; reflexivity|].
  split; [apply pool_Mono_ok|].
  match goal with |- ?G ∧ _ =>
    assert (Hg : G) by (vm_compute; reflexivity)
  end.
  split; [exact Hg|]. split; [reflexivity|].
  exact (X8_attempt_rounds _ _ _ _ _ _ _ _ _ _ (pool_Mono_ok 8) Hg).
Defined.

(** Two values always correlate with coefficient 1 or -1:
    [shufGen(2, leng)] does not return. *)
Lemma X9_witness :
  (∀ l, l ≡ₚ pool 2 → (1 # 100 < Qabs (pearson_q (phase 2) l))%Q) ∧
  ∀ fuel, shufGen pearson_q tape0 2 5 fuel = None.
Proof.
  assert (H : ∀ l, l ≡ₚ pool 2 →
                (1 # 100 < Qabs (pearson_q (phase 2) l))%Q).
  { intros l Hl. symmetry in Hl.
    apply Permutation_length_2_inv in Hl as [->| ->];
      vm_compute; reflexivity. }
  split; [exact H|].
  exact (X9_seed_search_unbounded pearson_q tape0 2 5 H).
Defined.

